(** * Technical indicators of [stock_investment_app.py]

    A shallow embedding of the indicator functions of the application
    ([calculate_moving_averages], [calculate_rsi], [calculate_macd],
    [identify_signals]) and of the recommendation shown from the last signal,
    together with the properties the design document states about them.

    The functions are four short pandas programs over one shared, mutable
    [DataFrame].  The embedding therefore has three layers:

    - [cell]: one float64 entry.  Finite values are exact rationals ([Qc]);
      the IEEE special values NaN, +inf and -inf are explicit constructors
      and the arithmetic on them follows IEEE 754 (x/0, inf-inf, comparisons
      with NaN).  Rounding and the sign of zero are not modelled.
    - the pandas operations the source calls ([diff], [where], [rolling.mean],
      [ewm.mean], element-wise arithmetic, boolean-mask assignment), written
      after the pandas implementation (running sum and count for the rolling
      mean, the recursive weights for the exponential mean).
    - the data frame as a store ([frame]) threaded through a small
      state-and-exception monad [M], since every function mutates [data] in
      place and a failing column lookup raises [KeyError] after the earlier
      assignments have already happened.

    Conventions of the model.  Columns are addressed by label, as the source
    does; their position in the frame is not represented.  The chained
    assignment [data['Signal'][mask] = v] writes through to the frame (the
    behaviour of pandas without copy-on-write, for which the application was
    written).  Windows and spans are Python integers, hence [Z]. *)

From Stdlib Require Import QArith Qcanon ZArith Lia.
From stdpp Require Import base numbers option list strings gmap fin_maps.

Set Default Proof Using "Type".

(** ** Float cells *)

Inductive cell : Type :=
  | NaN
  | PInf
  | NInf
  | Fin (x : Qc).

Global Instance cell_eq_dec : EqDecision cell.
Proof. solve_decision. Defined.

Definition is_fin (c : cell) : bool :=
  match c with Fin _ => true | _ => false end.

Definition is_nan (c : cell) : bool :=
  match c with NaN => true | _ => false end.

Definition cell_neg (a : cell) : cell :=
  match a with
  | NaN => NaN
  | PInf => NInf
  | NInf => PInf
  | Fin x => Fin (- x)%Qc
  end.

Definition cell_add (a b : cell) : cell :=
  match a, b with
  | NaN, _ | _, NaN => NaN
  | PInf, NInf | NInf, PInf => NaN
  | PInf, _ | _, PInf => PInf
  | NInf, _ | _, NInf => NInf
  | Fin x, Fin y => Fin (x + y)%Qc
  end.

Definition cell_sub (a b : cell) : cell := cell_add a (cell_neg b).

(** Division of floats under numpy: never raises; a finite non-zero value
    over zero is an infinity, zero over zero is NaN. *)
Definition cell_div (a b : cell) : cell :=
  match a, b with
  | NaN, _ | _, NaN => NaN
  | PInf, PInf | PInf, NInf | NInf, PInf | NInf, NInf => NaN
  | PInf, Fin y => if decide (y < 0)%Qc then NInf else PInf
  | NInf, Fin y => if decide (y < 0)%Qc then PInf else NInf
  | Fin _, PInf | Fin _, NInf => Fin 0%Qc
  | Fin x, Fin y =>
      if decide (y = 0%Qc) then
        if decide (0 < x)%Qc then PInf
        else if decide (x < 0)%Qc then NInf
        else NaN
      else Fin (x / y)%Qc
  end.

(** Comparisons: every comparison with NaN is False. *)
Definition cell_lt (a b : cell) : bool :=
  match a, b with
  | NaN, _ | _, NaN => false
  | PInf, _ => false
  | _, NInf => false
  | NInf, _ => true
  | Fin _, PInf => true
  | Fin x, Fin y => bool_decide (x < y)%Qc
  end.

Definition cell_gt (a b : cell) : bool := cell_lt b a.

Definition cell_le (a b : cell) : bool :=
  match a, b with
  | NaN, _ | _, NaN => false
  | NInf, _ => true
  | _, PInf => true
  | PInf, _ => false
  | Fin _, NInf => false
  | Fin x, Fin y => bool_decide (x ≤ y)%Qc
  end.

(** ** Columns and frames *)

(** The two dtypes the application meets: float64 (prices and indicators)
    and int64 (Volume, and the Signal column created from the scalar 0). *)
Inductive column : Type :=
  | Float64 (cs : list cell)
  | Int64 (zs : list Z).

Global Instance column_eq_dec : EqDecision column.
Proof. solve_decision. Defined.

Definition col_length (c : column) : nat :=
  match c with
  | Float64 cs => length cs
  | Int64 zs => length zs
  end.

(** Numeric operations read an int64 column as floats. *)
Definition as_float (c : column) : list cell :=
  match c with
  | Float64 cs => cs
  | Int64 zs => (λ z, Fin (Qc_of_Z z)) <$> zs
  end.

(** A DataFrame: the date index and the columns, addressed by label (the
    only way the functions below touch them). *)
Record frame : Type := Frame {
  index : list Z;
  columns : gmap string column
}.

Definition wf_frame (d : frame) : Prop :=
  ∀ k c, columns d !! k = Some c → col_length c = length (index d).

Definition set_column (k : string) (c : column) (d : frame) : frame :=
  {| index := index d; columns := <[k := c]> (columns d) |}.

(** ** Exceptions and the store monad *)

Inductive exn : Type :=
  | KeyError (key : string)
  | ValueError (msg : string).

Definition exn_class (e : exn) : string :=
  match e with
  | KeyError _ => "KeyError"
  | ValueError _ => "ValueError"
  end.

Inductive result (A : Type) : Type :=
  | Ok (a : A) (data : frame)
  | Raise (e : exn) (data : frame).
Arguments Ok {A} a data.
Arguments Raise {A} e data.

Definition M (A : Type) : Type := frame → result A.

Global Instance M_ret : MRet M := λ A a d, Ok a d.

Global Instance M_bind : MBind M := λ A B f m d,
  match m d with
  | Ok a d' => f a d'
  | Raise e d' => Raise e d'
  end.

Definition raise {A} (e : exn) : M A := λ d, Raise e d.

(** [data[k]] *)
Definition getitem (k : string) : M column :=
  λ d, match columns d !! k with
       | Some c => Ok c d
       | None => Raise (KeyError k) d
       end.

(** [data[k] = c] *)
Definition setitem (k : string) (c : column) : M unit :=
  λ d, Ok tt (set_column k c d).

Definition nrows : M nat := λ d, Ok (length (index d)) d.

Definition lift {A} (r : exn + A) : M A :=
  match r with
  | inl e => raise e
  | inr a => mret a
  end.

Definition final_frame {A} (r : result A) : frame :=
  match r with Ok _ d => d | Raise _ d => d end.

Definition raised {A} (r : result A) : option exn :=
  match r with Ok _ _ => None | Raise e _ => Some e end.

(** ** pandas series operations *)

(** [s.diff()] *)
Definition diff (s : list cell) : list cell :=
  match s with
  | [] => []
  | _ :: tl => NaN :: zip_with cell_sub tl s
  end.

(** [s.where(cond, other)] *)
Definition where_ (cond : list bool) (other : cell) (s : list cell) : list cell :=
  zip_with (λ (b : bool) c, if b then c else other) cond s.

(** The values handed to the window kernels: infinities are turned into
    missing observations, as NaN is. *)
Definition to_obs (c : cell) : option Qc :=
  match c with Fin x => Some x | _ => None end.

Definition prep_values (s : list cell) : list (option Qc) := to_obs <$> s.

Definition to_cell (o : option Qc) : cell :=
  match o with Some x => Fin x | None => NaN end.

(** *** Rolling mean

    The kernel keeps the running sum and the number of observations of the
    current window; entering values are added, leaving ones removed.  A
    result is produced when the window holds at least [minp] observations
    (and at least one), NaN otherwise. *)
Definition add_mean (v : option Qc) (st : Qc * Z) : Qc * Z :=
  match v with
  | Some x => ((st.1 + x)%Qc, (st.2 + 1)%Z)
  | None => st
  end.

Definition remove_mean (v : option Qc) (st : Qc * Z) : Qc * Z :=
  match v with
  | Some x => ((st.1 - x)%Qc, (st.2 - 1)%Z)
  | None => st
  end.

Definition calc_mean (minp : Z) (st : Qc * Z) : cell :=
  if decide (minp ≤ st.2 ∧ 0 < st.2)%Z
  then Fin (st.1 / Qc_of_Z st.2)%Qc
  else NaN.

(** One step of the kernel at index [i]: the value leaving the window,
    [vals[i - w]], is removed, then the entering value [v] is added. *)
Definition roll_step (w : nat) (vals : list (option Qc)) (i : nat)
    (v : option Qc) (st : Qc * Z) : Qc * Z :=
  add_mean v
    (if decide (w ≤ i) then
       match vals !! (i - w) with
       | Some old => remove_mean old st
       | None => st
       end
     else st).

Fixpoint roll_mean_from (w : nat) (vals : list (option Qc)) (i : nat)
    (todo : list (option Qc)) (st : Qc * Z) : list cell :=
  match todo with
  | [] => []
  | v :: todo' =>
      let st' := roll_step w vals i v st in
      calc_mean (Z.of_nat w) st' :: roll_mean_from w vals (S i) todo' st'
  end.

Definition roll_mean (w : nat) (vals : list (option Qc)) : list cell :=
  roll_mean_from w vals 0 vals (0%Qc, 0%Z).

(** [s.rolling(window=window).mean()], with [min_periods] left at its
    default, the window size. *)
Definition rolling_mean (window : Z) (s : list cell) : exn + list cell :=
  if decide (window < 0)%Z
  then inl (ValueError "window must be an integer 0 or greater")
  else inr (roll_mean (Z.to_nat window) (prep_values s)).

(** *** Exponentially weighted mean ([adjust=False], [ignore_na=False])

    The state is the current mean [weighted] (missing until the first
    observation) and the weight [old_wt] of the past.  At each step the past
    is discounted by [1 - alpha]; an observation [c] is then blended in with
    weight [alpha], unless it equals the current mean, and the weight of the
    past is reset to 1; a missing value leaves the mean as it is.  The mean
    is reported from the first observation on. *)
Definition ewm_step (alpha : Qc) (st : option Qc * Qc) (cur : option Qc)
    : option Qc * Qc :=
  match st.1 with
  | Some weighted =>
      let old_wt := (st.2 * (1 - alpha))%Qc in
      match cur with
      | Some c =>
          (Some (if decide (weighted = c) then weighted
                 else ((old_wt * weighted + alpha * c) / (old_wt + alpha))%Qc),
           1%Qc)
      | None => (Some weighted, old_wt)
      end
  | None => (cur, st.2)
  end.

Fixpoint ewm_from (alpha : Qc) (st : option Qc * Qc) (todo : list (option Qc))
    : list cell :=
  match todo with
  | [] => []
  | cur :: todo' =>
      let st' := ewm_step alpha st cur in
      to_cell st'.1 :: ewm_from alpha st' todo'
  end.

Definition ewm (alpha : Qc) (vals : list (option Qc)) : list cell :=
  match vals with
  | [] => []
  | v0 :: rest => to_cell v0 :: ewm_from alpha (v0, 1%Qc) rest
  end.

Definition span_alpha (span : Z) : Qc := (2 / (Qc_of_Z span + 1))%Qc.

(** [s.ewm(span=span, adjust=False).mean()] *)
Definition ewm_mean (span : Z) (s : list cell) : exn + list cell :=
  if decide (span < 1)%Z
  then inl (ValueError "span must satisfy: span >= 1")
  else inr (ewm (span_alpha span) (prep_values s)).

(** [col[mask] = v] on the column object held by the frame *)
Fixpoint mask_assign {A} (mask : list bool) (v : A) (xs : list A) {struct xs}
    : list A :=
  match xs, mask with
  | x :: xs', b :: mask' => (if b then v else x) :: mask_assign mask' v xs'
  | _, _ => xs
  end.

Definition column_mask_assign (mask : list bool) (v : Z) (c : column) : column :=
  match c with
  | Int64 zs => Int64 (mask_assign mask v zs)
  | Float64 cs => Float64 (mask_assign mask (Fin (Qc_of_Z v)) cs)
  end.

(** [data[k][mask] = v]: the column is looked up first, then the mask is
    evaluated, then the column is updated in place in the frame. *)
Definition setitem_masked (k : string) (mask : M (list bool)) (v : Z) : M unit :=
  c ← getitem k;
  m ← mask;
  setitem k (column_mask_assign m v c).

(** ** The indicator functions *)

Definition c100 : cell := Fin (Qc_of_Z 100).
Definition c1 : cell := Fin 1%Qc.
Definition c0 : cell := Fin 0%Qc.

(** [[
    def calculate_moving_averages(data, short_window=50, long_window=200):
        data['Short_MA'] = data['Close'].rolling(window=short_window).mean()
        data['Long_MA'] = data['Close'].rolling(window=long_window).mean()
        return data
    ]] *)
Definition calculate_moving_averages (short_window long_window : Z) : M unit :=
  close ← getitem "Close";
  short_ma ← lift (rolling_mean short_window (as_float close));
  setitem "Short_MA" (Float64 short_ma);;
  close ← getitem "Close";
  long_ma ← lift (rolling_mean long_window (as_float close));
  setitem "Long_MA" (Float64 long_ma).

(** [[
    def calculate_rsi(data, window=14):
        delta = data['Close'].diff()
        gain = (delta.where(delta > 0, 0)).rolling(window=window).mean()
        loss = (-delta.where(delta < 0, 0)).rolling(window=window).mean()
        rs = gain / loss
        data['RSI'] = 100 - (100 / (1 + rs))
        return data
    ]]
    [rsi_gain_raw] is [delta.where(delta > 0, 0)] and [rsi_loss_raw] is
    [-delta.where(delta < 0, 0)]. *)
Definition rsi_gain_raw (close : list cell) : list cell :=
  let delta := diff close in
  where_ ((λ d, cell_gt d c0) <$> delta) c0 delta.

Definition rsi_loss_raw (close : list cell) : list cell :=
  let delta := diff close in
  cell_neg <$> where_ ((λ d, cell_lt d c0) <$> delta) c0 delta.

(** [100 - (100 / (1 + rs))] *)
Definition rsi_of (rs : cell) : cell :=
  cell_sub c100 (cell_div c100 (cell_add c1 rs)).

Definition calculate_rsi (window : Z) : M unit :=
  close ← getitem "Close";
  gain ← lift (rolling_mean window (rsi_gain_raw (as_float close)));
  loss ← lift (rolling_mean window (rsi_loss_raw (as_float close)));
  let rs := zip_with cell_div gain loss in
  setitem "RSI" (Float64 (rsi_of <$> rs)).

(** [[
    def calculate_macd(data, short_window=12, long_window=26, signal_window=9):
        data['MACD'] = data['Close'].ewm(span=short_window, adjust=False).mean() - \
                       data['Close'].ewm(span=long_window, adjust=False).mean()
        data['Signal_Line'] = data['MACD'].ewm(span=signal_window, adjust=False).mean()
        return data
    ]] *)
Definition calculate_macd (short_window long_window signal_window : Z) : M unit :=
  close ← getitem "Close";
  ema_short ← lift (ewm_mean short_window (as_float close));
  close' ← getitem "Close";
  ema_long ← lift (ewm_mean long_window (as_float close'));
  setitem "MACD" (Float64 (zip_with cell_sub ema_short ema_long));;
  macd ← getitem "MACD";
  signal_line ← lift (ewm_mean signal_window (as_float macd));
  setitem "Signal_Line" (Float64 signal_line).

(** [data[a] op data[b]], a boolean mask *)
Definition compare_columns (op : cell → cell → bool) (a b : string) : M (list bool) :=
  x ← getitem a;
  y ← getitem b;
  mret (zip_with op (as_float x) (as_float y)).

(** [[
    def identify_signals(data):
        data['Signal'] = 0
        data['Signal'][data['Short_MA'] > data['Long_MA']] = 1
        data['Signal'][data['Short_MA'] <= data['Long_MA']] = -1
        return data
    ]] *)
Definition identify_signals : M unit :=
  n ← nrows;
  setitem "Signal" (Int64 (replicate n 0%Z));;
  setitem_masked "Signal" (compare_columns cell_gt "Short_MA" "Long_MA") 1;;
  setitem_masked "Signal" (compare_columns cell_le "Short_MA" "Long_MA") (-1).

(** ** The application: pipeline and recommendation *)

Inductive recommendation : Type := BUY | SELL | HOLD.

(** [[
    if last_signal == 1:      BUY
    elif last_signal == -1:   SELL
    else:                     HOLD
    ]] *)
Definition recommend (last_signal : Z) : recommendation :=
  if decide (last_signal = 1%Z) then BUY
  else if decide (last_signal = (-1)%Z) then SELL
  else HOLD.

(** The four calls of the Analyze branch, with the default parameters. *)
Definition analyze : M unit :=
  calculate_moving_averages 50 200;;
  calculate_rsi 14;;
  calculate_macd 12 26 9;;
  identify_signals.

Definition signal_values (d : frame) : option (list Z) :=
  match columns d !! "Signal" with
  | Some (Int64 zs) => Some zs
  | _ => None
  end.

(** [stock_data['Signal'].iloc[-1]] *)
Definition last_signal (d : frame) : option Z :=
  zs ← signal_values d; last zs.

Definition float_column (k : string) (d : frame) : option (list cell) :=
  as_float <$> columns d !! k.

(** ** Vocabulary of the stated properties *)

(** Entries [i-w+1 .. i] of a series (fewer when the series starts later). *)
Definition window {A} (w i : nat) (l : list A) : list A :=
  drop (S i - w) (take (S i) l).

Definition Qcsum (l : list Qc) : Qc := foldr Qcplus 0%Qc l.

Definition mean (l : list Qc) : Qc :=
  (Qcsum l / Qc_of_Z (Z.of_nat (length l)))%Qc.

(** Sum and number of the observations (non-missing values) of a window. *)
Definition sum_obs (l : list (option Qc)) : Qc :=
  foldr (λ v acc, (default 0 v + acc)%Qc) 0%Qc l.

Definition count_obs (l : list (option Qc)) : Z :=
  foldr (λ v acc, ((if v is Some _ then 1 else 0) + acc)%Z) 0%Z l.

Definition stats (l : list (option Qc)) : Qc * Z := (sum_obs l, count_obs l).

(** The series [gain] and [loss] of [calculate_rsi], and the column it
    stores. *)
Definition avg_gain (w : Z) (close : list cell) : list cell :=
  roll_mean (Z.to_nat w) (prep_values (rsi_gain_raw close)).

Definition avg_loss (w : Z) (close : list cell) : list cell :=
  roll_mean (Z.to_nat w) (prep_values (rsi_loss_raw close)).

Definition rsi_column (w : Z) (close : list cell) : list cell :=
  rsi_of <$> zip_with cell_div (avg_gain w close) (avg_loss w close).

(** The textbook recurrence [ema[0] = x[0]],
    [ema[i] = alpha * x[i] + (1 - alpha) * ema[i-1]]. *)
Fixpoint ema_from (alpha prev : Qc) (xs : list Qc) : list Qc :=
  match xs with
  | [] => []
  | x :: xs' =>
      let e := (alpha * x + (1 - alpha) * prev)%Qc in
      e :: ema_from alpha e xs'
  end.

Definition ema (alpha : Qc) (xs : list Qc) : list Qc :=
  match xs with
  | [] => []
  | x :: xs' => x :: ema_from alpha x xs'
  end.

(** The two EMA series and the two columns of [calculate_macd]. *)
Definition macd_column (sw lw : Z) (close : list cell) : list cell :=
  zip_with cell_sub (ewm (span_alpha sw) (prep_values close))
                    (ewm (span_alpha lw) (prep_values close)).

Definition signal_line_column (sw lw gw : Z) (close : list cell) : list cell :=
  ewm (span_alpha gw) (prep_values (macd_column sw lw close)).

(** The value [identify_signals] leaves at a date, from the two averages
    there: the Signal column starts at 0 and is overwritten by 1 where
    [Short_MA > Long_MA] and then by -1 where [Short_MA <= Long_MA]. *)
Definition signal_at (s l : cell) : Z :=
  if cell_gt s l then 1%Z
  else if is_nan s || is_nan l then 0%Z
  else (-1)%Z.

Definition signal_column (n : nat) (short_ma long_ma : list cell) : list Z :=
  mask_assign (zip_with cell_le short_ma long_ma) (-1)%Z
    (mask_assign (zip_with cell_gt short_ma long_ma) 1%Z (replicate n 0%Z)).

(** The gain and the loss of one price change. *)
Definition gain1 (d : cell) : cell := if cell_gt d c0 then d else c0.
Definition loss1 (d : cell) : cell := cell_neg (if cell_lt d c0 then d else c0).

(** A missing value or a non-negative observation; an undefined or
    non-negative cell. *)
Definition nonneg_obs (v : option Qc) : Prop := ∀ x, v = Some x → (0 ≤ x)%Qc.

Definition nonneg_cell (c : cell) : Prop :=
  c = NaN ∨ ∃ x, c = Fin x ∧ (0 ≤ x)%Qc.

(** An undefined cell or a value in [0, 100]. *)
Definition bounded_cell (c : cell) : Prop :=
  c = NaN ∨ ∃ x, c = Fin x ∧ (0 ≤ x)%Qc ∧ (x ≤ Qc_of_Z 100)%Qc.

(** Strictly increasing prices. *)
Definition increasing (xs : list Qc) : Prop :=
  ∀ i a b, xs !! i = Some a → xs !! S i = Some b → (a < b)%Qc.

(** The labels each function assigns to. *)
Definition ma_labels : gset string := {["Short_MA"; "Long_MA"]}.
Definition rsi_labels : gset string := {["RSI"]}.
Definition macd_labels : gset string := {["MACD"; "Signal_Line"]}.
Definition signal_labels : gset string := {["Signal"]}.

(** Frame condition of a call: same index, every column outside [own]
    untouched, and exactly the labels [own] added to the frame. *)
Definition frame_preserved (own : gset string) (d d' : frame) : Prop :=
  index d' = index d ∧
  (∀ k, k ∉ own → columns d' !! k = columns d !! k) ∧
  dom (columns d') = dom (columns d) ∪ own.

(** The rational a cell holds, for reading computed columns. *)
Definition cell_Q (c : cell) : option Q :=
  match c with Fin x => Some (this x) | _ => None end.

(** Small frames for the examples. *)
Definition qz (z : Z) : cell := Fin (Qc_of_Z z).

Definition price_frame (closes : list Z) : frame :=
  {| index := Z.of_nat <$> seq 0 (length closes);
     columns := {[ "Close" := Float64 (qz <$> closes) ]} |}.

Definition ma_frame (short_ma long_ma : list cell) : frame :=
  {| index := Z.of_nat <$> seq 0 (length short_ma);
     columns := {[ "Short_MA" := Float64 short_ma;
                   "Long_MA" := Float64 long_ma ]} |}.

(** The labels the whole pipeline assigns to. *)
Definition analyze_labels : gset string :=
  ma_labels ∪ rsi_labels ∪ macd_labels ∪ signal_labels.

Ltac frame_eq :=
  unfold set_column; simpl; f_equal; apply map_eq; intros ?;
  rewrite !lookup_insert; repeat case_decide; congruence.

(** Prices rescaled and shifted, [k * x + c], and the same map on the cells
    of a column (undefined cells stay undefined). *)
Definition affine (k c x : Qc) : Qc := (k * x + c)%Qc.

Definition cell_affine (k c : Qc) (v : cell) : cell :=
  match v with Fin x => Fin (affine k c x) | _ => v end.

Definition rescaled (k c : Qc) (xs : list Qc) : list cell :=
  Fin <$> (affine k c <$> xs).

(** The frame with its [Close] column replaced. *)
Definition with_close (close : list cell) (d : frame) : frame :=
  set_column "Close" (Float64 close) d.

(** Strictly decreasing prices. *)
Definition decreasing (xs : list Qc) : Prop :=
  ∀ i a b, xs !! i = Some a → xs !! S i = Some b → (b < a)%Qc.

(** [100 * g / (g + l)], undefined when both averages are zero. *)
Definition rsi_ratio (g l : Qc) : cell :=
  if decide (g + l = 0)%Qc then NaN
  else Fin (Qc_of_Z 100 * g / (g + l))%Qc.

(** MACD and signal line of a series of numbers by the textbook recurrence. *)
Definition macd_values (sw lw : Z) (xs : list Qc) : list Qc :=
  zip_with (λ a b, (a + - b)%Qc)
    (ema (span_alpha sw) xs) (ema (span_alpha lw) xs).

Definition signal_line_values (sw lw gw : Z) (xs : list Qc) : list Qc :=
  ema (span_alpha gw) (macd_values sw lw xs).

(** ** The rest of the application

    [yf.download] is an external service: it either returns a frame or
    raises.  What the page shows is recorded as a list of messages; charts
    are recorded by name only. *)
Inductive download_result : Type :=
  | Downloaded (data : frame)
  | DownloadRaised (e : string).

Inductive message : Type :=
  | MsgFetching (ticker : string)
  | MsgFetchError (e : string)
  | MsgNoData
  | MsgTable (rows : frame)
  | MsgPriceChart
  | MsgRsiChart
  | MsgMacdChart
  | MsgRecommendation (r : recommendation).

(** [[
    def fetch_stock_data(ticker, start_date, end_date):
        try:
            stock_data = yf.download(ticker, start=start_date, end=end_date)
            return stock_data
        except Exception as e:
            st.error(f"Error fetching stock data: {e}")
            return None
    ]] *)
Definition fetch_stock_data (yf_download : string → Z → Z → download_result)
    (ticker : string) (start_date end_date : Z) : option frame * list message :=
  match yf_download ticker start_date end_date with
  | Downloaded stock_data => (Some stock_data, [])
  | DownloadRaised e => (None, [MsgFetchError e])
  end.

(** [stock_data.empty]: one of the two axes has length 0. *)
Definition frame_empty (d : frame) : bool :=
  bool_decide (index d = []) || bool_decide (columns d = ∅).

(** [stock_data.tail(n)]: the last [n] rows. *)
Definition last_n {A} (n : nat) (l : list A) : list A :=
  drop (length l - n) l.

Definition column_tail (n : nat) (c : column) : column :=
  match c with
  | Float64 cs => Float64 (last_n n cs)
  | Int64 zs => Int64 (last_n n zs)
  end.

Definition tail_rows (n : nat) (d : frame) : frame :=
  {| index := last_n n (index d); columns := column_tail n <$> columns d |}.

(** What a click on Analyze does: the messages shown, and the exception
    that ends the run, if any.  [None] from [last_signal] stands for the
    [IndexError] of [.iloc[-1]] on an empty Signal column. *)
Inductive uncaught : Type :=
  | Uncaught (e : exn)
  | UncaughtIndexError.

Definition on_analyze (yf_download : string → Z → Z → download_result)
    (ticker : string) (start_date end_date : Z)
    : list message * option uncaught :=
  let '(stock_data, errors) :=
    fetch_stock_data yf_download ticker start_date end_date in
  let shown := MsgFetching ticker :: errors in
  match stock_data with
  | Some data =>
      if frame_empty data then (shown ++ [MsgNoData], None)
      else
        match analyze data with
        | Raise e _ => (shown, Some (Uncaught e))
        | Ok _ data' =>
            let shown' :=
              shown ++ [MsgTable (tail_rows 10 data');
                        MsgPriceChart; MsgRsiChart; MsgMacdChart] in
            match last_signal data' with
            | Some s => (shown' ++ [MsgRecommendation (recommend s)], None)
            | None => (shown', Some UncaughtIndexError)
            end
        end
  | None => (shown ++ [MsgNoData], None)
  end.


(** A download service that knows one ticker. *)
Definition yf_example (ticker : string) (start_date end_date : Z)
    : download_result :=
  if decide (ticker = "AAPL") then Downloaded (price_frame [10; 11; 12]%Z)
  else DownloadRaised "no such ticker".

Ltac run_M :=
  unfold mbind, M_bind, mret, M_ret, getitem, setitem, nrows, lift, raise;
  simpl.

(** * Auxiliary results *)

(** ** Lists, masks and windows *)

Lemma mask_assign_length {A} (mask : list bool) (v : A) xs :
  length (mask_assign mask v xs) = length xs.
Proof.
  revert mask; induction xs as [|x xs IH]; intros [|b mask]; simpl; auto.
Qed.

Lemma mask_assign_lookup {A} (mask : list bool) (v : A) xs i :
  mask_assign mask v xs !! i =
  match mask !! i with
  | Some true => (λ _, v) <$> xs !! i
  | _ => xs !! i
  end.
Proof.
  revert mask i; induction xs as [|x xs IH]; intros mask i.
  - simpl. by destruct (mask !! i) as [[]|].
  - destruct mask as [|b mask], i as [|i]; simpl; try done.
    by destruct b.
Qed.

Lemma window_fmap {A B} (f : A → B) w i (l : list A) :
  window w i (f <$> l) = f <$> window w i l.
Proof. unfold window. by rewrite fmap_drop, fmap_take. Qed.

Lemma window_length {A} w i (l : list A) :
  i < length l → length (window w i l) = S i `min` w.
Proof. intros Hi. unfold window. rewrite length_drop, length_take. lia. Qed.

Lemma window_lookup {A} w i (l : list A) k :
  k < S i `min` w → window w i l !! k = l !! (S i - w + k).
Proof.
  intros Hk. unfold window. rewrite lookup_drop, lookup_take_lt by lia. done.
Qed.

Lemma window_Forall {A} (P : A → Prop) w i (l : list A) :
  (∀ j x, S i - w ≤ j ≤ i → l !! j = Some x → P x) →
  Forall P (window w i l).
Proof.
  intros H. apply Forall_lookup. intros k x Hk.
  assert (k < length (window w i l)) as Hlen by (by eapply lookup_lt_Some).
  unfold window in Hk, Hlen.
  rewrite length_drop, length_take in Hlen.
  rewrite lookup_drop, lookup_take_lt in Hk by lia.
  apply (H (S i - w + k)); [lia | done].
Qed.

Lemma as_float_length c : length (as_float c) = col_length c.
Proof. destruct c; simpl; [done | by rewrite length_fmap]. Qed.

Lemma diff_length s : length (diff s) = length s.
Proof.
  destruct s as [|x s]; simpl; [done|].
  rewrite length_zip_with. simpl. lia.
Qed.

Lemma diff_lookup_inv s j d :
  diff s !! j = Some d →
  (j = 0 ∧ d = NaN) ∨
  (∃ j' a b, j = S j' ∧ s !! S j' = Some a ∧ s !! j' = Some b ∧
             d = cell_sub a b).
Proof.
  destruct s as [|h tl]; [done|]. destruct j as [|j']; simpl.
  - intros [= <-]. by left.
  - intros Hd. right.
    apply lookup_zip_with_Some in Hd as (a & b & -> & Ha & Hb).
    by exists j', a, b.
Qed.

Lemma where_fmap (f : cell → bool) other s :
  where_ (f <$> s) other s = (λ c, if f c then c else other) <$> s.
Proof. unfold where_. by rewrite zip_with_fmap_l, zip_with_diag. Qed.

(** ** Rational arithmetic *)

Lemma Qcopp_0 : (- 0)%Qc = 0%Qc.
Proof. ring. Qed.

Lemma Qcdiv_0_l x : (0 / x)%Qc = 0%Qc.
Proof. unfold Qcdiv. ring. Qed.

Lemma Qc_of_Z_pos z : (0 < z)%Z → (0 < Qc_of_Z z)%Qc.
Proof.
  intros Hz. rewrite <- Z2Qc_inj_0. by apply (proj1 (Z2Qc_inj_lt 0 z)).
Qed.

Lemma Qc100_nonneg : (0 ≤ Qc_of_Z 100)%Qc.
Proof. apply Qclt_le_weak, Qc_of_Z_pos. lia. Qed.

Lemma Qclt_irrefl_0 : ¬ (0 < 0)%Qc.
Proof. apply (irreflexivity Qclt). Qed.

(** ** Observations of a window *)

Lemma sum_obs_app l1 l2 : sum_obs (l1 ++ l2) = (sum_obs l1 + sum_obs l2)%Qc.
Proof. induction l1 as [|v l1 IH]; simpl; [ring | rewrite IH; ring]. Qed.

Lemma count_obs_app l1 l2 :
  count_obs (l1 ++ l2) = (count_obs l1 + count_obs l2)%Z.
Proof. induction l1 as [|v l1 IH]; simpl; lia. Qed.

Lemma sum_obs_Some xs : sum_obs (Some <$> xs) = Qcsum xs.
Proof. induction xs as [|x xs IH]; csimpl; [done | by rewrite IH]. Qed.

Lemma count_obs_Some xs : count_obs (Some <$> xs) = Z.of_nat (length xs).
Proof. induction xs as [|x xs IH]; csimpl; [done | lia]. Qed.

Lemma count_obs_bounds l : (0 ≤ count_obs l ≤ Z.of_nat (length l))%Z.
Proof. induction l as [|[x|] l IH]; simpl; lia. Qed.

Lemma count_obs_all l : Forall is_Some l → count_obs l = Z.of_nat (length l).
Proof. induction 1 as [|v l [x ->] _ IH]; simpl; lia. Qed.

Lemma count_obs_missing l :
  ¬ Forall is_Some l → (count_obs l < Z.of_nat (length l))%Z.
Proof.
  induction l as [|[x|] l IH]; intros Hnot; simpl.
  - by destruct Hnot.
  - assert (¬ Forall is_Some l) as Hl.
    { intros Hl. apply Hnot. by constructor. }
    specialize (IH Hl). lia.
  - pose proof (count_obs_bounds l). lia.
Qed.

Lemma sum_obs_nonneg l : Forall nonneg_obs l → (0 ≤ sum_obs l)%Qc.
Proof.
  induction 1 as [|v l Hv _ IH]; simpl; [done|].
  apply Qcplus_nonneg_nonneg; [|done].
  destruct v as [x|]; simpl; [by apply Hv | done].
Qed.

Lemma sum_obs_zero l : Forall (λ v, v = Some 0%Qc) l → sum_obs l = 0%Qc.
Proof. induction 1 as [|v l -> _ IH]; simpl; [done | rewrite IH; ring]. Qed.

Lemma sum_obs_pos l :
  Forall (λ v, ∃ x, v = Some x ∧ (0 < x)%Qc) l → l ≠ [] → (0 < sum_obs l)%Qc.
Proof.
  induction 1 as [|v l (x & -> & Hx) Hl IH]; intros Hne; simpl; [done|].
  apply Qcplus_pos_nonneg; [done|].
  apply sum_obs_nonneg. eapply Forall_impl; [done|].
  intros v (y & -> & Hy) ? [= <-]. by apply Qclt_le_weak.
Qed.

Lemma add_mean_stats v l : add_mean v (stats l) = stats (l ++ [v]).
Proof.
  unfold stats, add_mean. rewrite sum_obs_app, count_obs_app.
  destruct v; simpl; f_equal; try ring.
Qed.

Lemma remove_mean_stats v l : remove_mean v (stats (v :: l)) = stats l.
Proof. unfold stats, remove_mean. destruct v; simpl; f_equal; try ring. Qed.

Lemma prep_values_Fin xs : prep_values (Fin <$> xs) = Some <$> xs.
Proof. unfold prep_values. by rewrite <- list_fmap_compose. Qed.

Lemma prep_values_length s : length (prep_values s) = length s.
Proof. unfold prep_values. by rewrite length_fmap. Qed.

(** ** The rolling kernel computes the statistics of the window *)

Section rolling.
Context (w : nat) (vals : list (option Qc)).

Lemma roll_step_window i v :
  1 ≤ w → vals !! i = Some v →
  roll_step w vals i v (stats (drop (i - w) (take i vals)))
  = stats (window w i vals).
Proof.
  intros Hw Hv. unfold roll_step, window.
  rewrite (take_S_r _ _ _ Hv).
  assert (Hlen : length (take i vals) = i).
  { apply lookup_lt_Some in Hv. rewrite length_take. lia. }
  destruct (decide (w ≤ i)) as [Hwi|Hwi].
  - destruct (lookup_lt_is_Some_2 vals (i - w)) as [old Hold].
    { apply lookup_lt_Some in Hv. lia. }
    rewrite Hold.
    rewrite (drop_S (take i vals) old (i - w)).
    2:{ rewrite lookup_take_lt by lia. done. }
    rewrite remove_mean_stats, add_mean_stats.
    replace (S i - w) with (S (i - w)) by lia.
    rewrite drop_app_le by lia. done.
  - replace (i - w) with 0 by lia. replace (S i - w) with 0 by lia.
    rewrite !drop_0. apply add_mean_stats.
Qed.

Lemma roll_mean_from_lookup todo : ∀ i j,
  1 ≤ w → drop i vals = todo → j < length todo →
  roll_mean_from w vals i todo (stats (drop (i - w) (take i vals))) !! j
  = Some (calc_mean (Z.of_nat w) (stats (window w (i + j) vals))).
Proof.
  induction todo as [|v todo IH]; intros i j Hw Hdrop Hj; simpl in Hj; [lia|].
  assert (Hv : vals !! i = Some v).
  { rewrite <- (Nat.add_0_r i), <- lookup_drop, Hdrop. done. }
  simpl. rewrite (roll_step_window i v Hw Hv).
  destruct j as [|j]; simpl.
  - by rewrite Nat.add_0_r.
  - replace (i + S j) with (S i + j) by lia.
    unfold window at 1. apply IH; [done| |lia].
    rewrite (drop_S _ _ _ Hv) in Hdrop. by injection Hdrop.
Qed.

Lemma roll_mean_from_length todo : ∀ i st,
  length (roll_mean_from w vals i todo st) = length todo.
Proof. induction todo as [|v todo IH]; intros; simpl; auto. Qed.
End rolling.

Lemma roll_mean_length w vals : length (roll_mean w vals) = length vals.
Proof. apply roll_mean_from_length. Qed.

Lemma roll_mean_lookup w vals i :
  1 ≤ w → i < length vals →
  roll_mean w vals !! i
  = Some (calc_mean (Z.of_nat w) (stats (window w i vals))).
Proof.
  intros Hw Hi. unfold roll_mean.
  change (0%Qc, 0%Z) with (stats (drop (0 - w) (take 0 vals))).
  by rewrite roll_mean_from_lookup.
Qed.

(** The rolling mean of any series: undefined while the window is not
    full or holds a missing value, the mean of the window otherwise. *)
Lemma roll_mean_cases (w : Z) s i :
  (1 ≤ w)%Z → i < length s →
  ((Z.of_nat i < w - 1)%Z →
     roll_mean (Z.to_nat w) (prep_values s) !! i = Some NaN) ∧
  (∀ ys, (w - 1 ≤ Z.of_nat i)%Z → window (Z.to_nat w) i s = Fin <$> ys →
     length ys = Z.to_nat w ∧
     roll_mean (Z.to_nat w) (prep_values s) !! i = Some (Fin (mean ys))) ∧
  (¬ Forall (λ c, is_fin c = true) (window (Z.to_nat w) i s) →
     roll_mean (Z.to_nat w) (prep_values s) !! i = Some NaN).
Proof.
  intros Hw Hi.
  rewrite roll_mean_lookup by (rewrite ?prep_values_length; lia).
  unfold prep_values. rewrite window_fmap.
  pose proof (window_length (Z.to_nat w) i s Hi) as Hlen.
  split_and!.
  - intros Hpre. f_equal. unfold calc_mean, stats. simpl.
    pose proof (count_obs_bounds (to_obs <$> window (Z.to_nat w) i s)) as Hb.
    rewrite length_fmap, Hlen in Hb.
    rewrite decide_False; [done | lia].
  - intros ys Hfull Hys. rewrite Hys in Hlen |- *.
    rewrite length_fmap in Hlen.
    split; [lia|]. f_equal.
    rewrite <- list_fmap_compose.
    change (to_obs ∘ Fin) with (@Some Qc).
    unfold calc_mean, stats, mean. simpl.
    rewrite sum_obs_Some, count_obs_Some.
    by rewrite decide_True by lia.
  - intros Hmiss. f_equal. unfold calc_mean, stats. simpl.
    rewrite decide_False; [done|].
    pose proof (count_obs_missing (to_obs <$> window (Z.to_nat w) i s)) as Hc.
    rewrite length_fmap, Hlen in Hc.
    intros [Hge _]. apply Zle_not_lt in Hge. apply Hge.
    eapply Z.lt_le_trans; [apply Hc | lia].
    intros Hall. apply Hmiss.
    apply Forall_lookup. intros k c Hk.
    assert ((to_obs <$> window (Z.to_nat w) i s) !! k = Some (to_obs c)) as Hk'.
    { by rewrite list_lookup_fmap, Hk. }
    destruct (Forall_lookup_1 _ _ _ _ Hall Hk') as [x Hx]. by destruct c.
Qed.

(** With a window of 0 the kernel never holds an observation. *)
Lemma roll_step_zero vals i v :
  vals !! i = Some v → roll_step 0 vals i v (0%Qc, 0%Z) = (0%Qc, 0%Z).
Proof.
  intros Hv. unfold roll_step. rewrite decide_True by lia.
  rewrite Nat.sub_0_r, Hv. destruct v as [x|]; simpl; [|done].
  f_equal. ring.
Qed.

Lemma roll_mean_from_zero vals todo : ∀ i,
  drop i vals = todo →
  roll_mean_from 0 vals i todo (0%Qc, 0%Z) = replicate (length todo) NaN.
Proof.
  induction todo as [|v todo IH]; intros i Hdrop; simpl; [done|].
  assert (Hv : vals !! i = Some v).
  { rewrite <- (Nat.add_0_r i), <- lookup_drop, Hdrop. done. }
  rewrite roll_step_zero by done. f_equal.
  apply IH. rewrite (drop_S _ _ _ Hv) in Hdrop. by injection Hdrop.
Qed.

Lemma roll_mean_zero vals : roll_mean 0 vals = replicate (length vals) NaN.
Proof. by apply roll_mean_from_zero. Qed.

Lemma calc_mean_nonneg minp l :
  Forall nonneg_obs l → nonneg_cell (calc_mean minp (stats l)).
Proof.
  intros Hl. unfold calc_mean, stats. simpl.
  case_decide as Hc; [right | by left].
  eexists. split; [done|]. unfold Qcdiv.
  apply Qcmult_nonneg_nonneg; [by apply sum_obs_nonneg|].
  apply Qclt_le_weak, Qcinv_pos.
  apply Qc_of_Z_pos. lia.
Qed.

Lemma roll_mean_nonneg w vals i c :
  Forall nonneg_obs vals → roll_mean w vals !! i = Some c → nonneg_cell c.
Proof.
  intros Hvals Hc.
  destruct (decide (w = 0)) as [->|Hw].
  - rewrite roll_mean_zero in Hc. apply lookup_replicate in Hc as [-> _].
    by left.
  - assert (i < length vals) as Hi.
    { apply lookup_lt_Some in Hc. by rewrite roll_mean_length in Hc. }
    rewrite roll_mean_lookup in Hc by lia. injection Hc as <-.
    apply calc_mean_nonneg, window_Forall.
    intros j x _ Hx. by eapply Forall_lookup_1.
Qed.

Lemma calc_mean_zero (w : nat) l :
  1 ≤ w → w ≤ length l → Forall (λ v, v = Some 0%Qc) l →
  calc_mean (Z.of_nat w) (stats l) = Fin 0%Qc.
Proof.
  intros Hw Hlen Hl. unfold calc_mean, stats. simpl.
  rewrite count_obs_all, (sum_obs_zero l Hl).
  2:{ eapply Forall_impl; [done|]. by intros v ->. }
  rewrite decide_True by lia. by rewrite Qcdiv_0_l.
Qed.

(** ** The exponential mean *)

Lemma ewm_from_length alpha todo : ∀ st,
  length (ewm_from alpha st todo) = length todo.
Proof. induction todo as [|v todo IH]; intros; simpl; auto. Qed.

Lemma ewm_length alpha vals : length (ewm alpha vals) = length vals.
Proof. destruct vals; simpl; [done | by rewrite ewm_from_length]. Qed.

Lemma ewm_step_finite alpha e x :
  ewm_step alpha (Some e, 1%Qc) (Some x)
  = (Some (alpha * x + (1 - alpha) * e)%Qc, 1%Qc).
Proof.
  unfold ewm_step. simpl. f_equal. f_equal.
  destruct (decide (e = x)) as [->|Hne]; [ring|].
  replace (1 * (1 - alpha) + alpha)%Qc with 1%Qc by ring.
  rewrite (right_id_L 1%Qc Qcdiv). ring.
Qed.

Lemma ewm_from_finite alpha xs : ∀ e,
  ewm_from alpha (Some e, 1%Qc) (Some <$> xs) = Fin <$> ema_from alpha e xs.
Proof.
  induction xs as [|x xs IH]; intros e; [done|].
  rewrite !fmap_cons. cbn [ewm_from ema_from].
  rewrite ewm_step_finite. cbn [fst to_cell]. by rewrite IH.
Qed.

(** On a series without missing values the kernel is the textbook
    recurrence. *)
Lemma ewm_finite alpha xs : ewm alpha (Some <$> xs) = Fin <$> ema alpha xs.
Proof.
  destruct xs as [|x xs]; [done|].
  rewrite fmap_cons. cbn [ewm ema]. by rewrite ewm_from_finite.
Qed.

Lemma ema_from_constant alpha c n :
  ema_from alpha c (replicate n c) = replicate n c.
Proof.
  induction n as [|n IH]; simpl; [done|].
  replace (alpha * c + (1 - alpha) * c)%Qc with c by ring. by rewrite IH.
Qed.

Lemma ema_constant alpha c n : ema alpha (replicate n c) = replicate n c.
Proof. destruct n; simpl; [done | by rewrite ema_from_constant]. Qed.

(** Once an observation has been seen the mean is defined at every later
    index, whatever follows. *)
Lemma ewm_step_defined alpha st cur :
  is_Some st.1 → is_Some (ewm_step alpha st cur).1.
Proof. intros [e He]. unfold ewm_step. rewrite He. by destruct cur. Qed.

Lemma ewm_from_defined alpha todo : ∀ st,
  is_Some st.1 → Forall (λ c, is_fin c = true) (ewm_from alpha st todo).
Proof.
  induction todo as [|cur todo IH]; intros st Hst; simpl; [done|].
  pose proof (ewm_step_defined alpha st cur Hst) as Hst'.
  constructor; [|by apply IH].
  by destruct Hst' as [e ->].
Qed.

Lemma ewm_defined alpha x rest :
  Forall (λ c, is_fin c = true) (ewm alpha (Some x :: rest)).
Proof. simpl. constructor; [done|]. apply ewm_from_defined. by eexists. Qed.

Lemma zip_with_sub_defined l1 : ∀ l2,
  Forall (λ c, is_fin c = true) l1 → Forall (λ c, is_fin c = true) l2 →
  Forall (λ c, is_fin c = true) (zip_with cell_sub l1 l2).
Proof.
  induction l1 as [|a l1 IH]; intros [|b l2] H1 H2; simpl; try done.
  inversion_clear H1. inversion_clear H2.
  constructor; [by destruct a, b | by apply IH].
Qed.

Lemma macd_column_length sw lw s : length (macd_column sw lw s) = length s.
Proof.
  unfold macd_column.
  rewrite length_zip_with, !ewm_length, prep_values_length. lia.
Qed.

Lemma signal_line_column_length sw lw gw s :
  length (signal_line_column sw lw gw s) = length s.
Proof.
  unfold signal_line_column.
  by rewrite ewm_length, prep_values_length, macd_column_length.
Qed.

Lemma macd_column_seeded sw lw x rest :
  ∃ tl, macd_column sw lw (Fin x :: rest) = Fin 0%Qc :: tl ∧
        Forall (λ c, is_fin c = true) tl.
Proof.
  unfold macd_column.
  change (prep_values (Fin x :: rest)) with (Some x :: prep_values rest).
  pose proof (zip_with_sub_defined _ _
    (ewm_defined (span_alpha sw) x (prep_values rest))
    (ewm_defined (span_alpha lw) x (prep_values rest))) as Hdef.
  simpl in *. inversion_clear Hdef as [|? ? _ Htl].
  eexists. split; [|done]. f_equal. f_equal. ring.
Qed.

(** ** Gains, losses and their averages *)

Lemma rsi_gain_raw_eq s : rsi_gain_raw s = gain1 <$> diff s.
Proof. unfold rsi_gain_raw. by rewrite where_fmap. Qed.

Lemma rsi_loss_raw_eq s : rsi_loss_raw s = loss1 <$> diff s.
Proof.
  unfold rsi_loss_raw. by rewrite where_fmap, <- list_fmap_compose.
Qed.

Lemma rsi_gain_raw_length s : length (rsi_gain_raw s) = length s.
Proof. unfold rsi_gain_raw. by rewrite where_fmap, length_fmap, diff_length. Qed.

Lemma rsi_loss_raw_length s : length (rsi_loss_raw s) = length s.
Proof.
  unfold rsi_loss_raw. by rewrite where_fmap, !length_fmap, diff_length.
Qed.

Lemma gain1_nonneg d : nonneg_obs (to_obs (gain1 d)).
Proof.
  unfold gain1, cell_gt, nonneg_obs.
  destruct d as [| | |y]; simpl; try case_bool_decide; simpl;
    intros x Hx; simplify_eq; try apply Qcle_refl.
  by apply Qclt_le_weak.
Qed.

Lemma loss1_nonneg d : nonneg_obs (to_obs (loss1 d)).
Proof.
  unfold loss1, nonneg_obs.
  destruct d as [| | |y]; simpl; try case_bool_decide; simpl;
    intros x Hx; simplify_eq; try (rewrite Qcopp_0; apply Qcle_refl).
  rewrite <- Qcopp_0. by apply Qcopp_le_compat, Qclt_le_weak.
Qed.

Lemma gain_obs_nonneg s : Forall nonneg_obs (prep_values (rsi_gain_raw s)).
Proof.
  rewrite rsi_gain_raw_eq. unfold prep_values.
  rewrite <- list_fmap_compose. apply Forall_fmap, Forall_true.
  intros d. apply gain1_nonneg.
Qed.

Lemma loss_obs_nonneg s : Forall nonneg_obs (prep_values (rsi_loss_raw s)).
Proof.
  rewrite rsi_loss_raw_eq. unfold prep_values.
  rewrite <- list_fmap_compose. apply Forall_fmap, Forall_true.
  intros d. apply loss1_nonneg.
Qed.

Lemma gain1_pos x : (0 < x)%Qc → to_obs (gain1 (Fin x)) = Some x.
Proof.
  intros Hx. unfold gain1, cell_gt, cell_lt, c0.
  by rewrite bool_decide_eq_true_2.
Qed.

Lemma loss1_pos x : (0 < x)%Qc → to_obs (loss1 (Fin x)) = Some 0%Qc.
Proof.
  intros Hx. unfold loss1, cell_lt, c0.
  rewrite bool_decide_eq_false_2.
  - simpl. by rewrite Qcopp_0.
  - intros Hneg. by apply Qclt_irrefl_0, (Qclt_trans _ x).
Qed.

(** ** The RSI formula *)

Lemma rsi_formula_bounds (h r : Qc) :
  (0 ≤ h)%Qc → (0 ≤ r)%Qc →
  (0 ≤ h + - (h / (1 + r)) ∧ h + - (h / (1 + r)) ≤ h)%Qc.
Proof.
  intros Hh Hr.
  assert (Ht : (0 < 1 + r)%Qc) by (by apply Qcplus_pos_nonneg).
  assert (Hq0 : (0 ≤ h / (1 + r))%Qc).
  { unfold Qcdiv. apply Qcmult_nonneg_nonneg; [done|].
    by apply Qclt_le_weak, Qcinv_pos. }
  assert (Hq1 : (h / (1 + r) ≤ h)%Qc).
  { apply (Qcmult_le_mono_pos_r _ _ (1 + r)%Qc); [done|].
    unfold Qcdiv. rewrite <- Qcmult_assoc, Qcmult_inv_l.
    2:{ intros Heq. rewrite Heq in Ht. by apply (irreflexivity Qclt 0%Qc). }
    rewrite Qcmult_1_r. rewrite Qcmult_plus_distr_r, Qcmult_1_r.
    rewrite <- (Qcplus_0_r h) at 1. apply Qcplus_le_mono_l.
    by apply Qcmult_nonneg_nonneg. }
  split.
  - by apply Qcle_minus_iff in Hq1.
  - apply Qcle_minus_iff.
    replace (h + - (h + - (h / (1 + r))))%Qc with (h / (1 + r))%Qc by ring.
    done.
Qed.

Lemma cell_div_fin x y :
  y ≠ 0%Qc → cell_div (Fin x) (Fin y) = Fin (x / y)%Qc.
Proof. intros Hy. unfold cell_div. by rewrite decide_False. Qed.

Lemma cell_div_pos_zero p : (0 < p)%Qc → cell_div (Fin p) (Fin 0%Qc) = PInf.
Proof.
  intros Hp. unfold cell_div. rewrite decide_True by done.
  by rewrite decide_True.
Qed.

Lemma cell_div_zero_zero : cell_div (Fin 0%Qc) (Fin 0%Qc) = NaN.
Proof.
  unfold cell_div. rewrite decide_True by done.
  by rewrite !decide_False by apply Qclt_irrefl_0.
Qed.

Lemma cell_div_nonpos_zero x :
  (0 ≤ x)%Qc → ¬ (0 < x)%Qc → cell_div (Fin x) (Fin 0%Qc) = NaN.
Proof.
  intros Hx Hnp. unfold cell_div. rewrite decide_True by done.
  rewrite decide_False by done. rewrite decide_False; [done|].
  by apply Qcle_not_lt.
Qed.

Lemma rsi_of_nan : rsi_of NaN = NaN.
Proof. done. Qed.

Lemma rsi_of_pinf : rsi_of PInf = c100.
Proof.
  unfold rsi_of. cbn [cell_add c1 cell_div c100 cell_sub cell_neg].
  unfold c100. f_equal. ring.
Qed.

Lemma rsi_of_fin r :
  (0 ≤ r)%Qc →
  rsi_of (Fin r) = Fin (Qc_of_Z 100 + - (Qc_of_Z 100 / (1 + r)))%Qc.
Proof.
  intros Hr. unfold rsi_of. cbn [cell_add c1]. unfold c100.
  rewrite cell_div_fin; [done|].
  intros Heq. pose proof (Qcplus_pos_nonneg 1 r) as Hpos.
  rewrite Heq in Hpos. by apply Qclt_irrefl_0, Hpos.
Qed.

Lemma rsi_of_saturated p :
  (0 < p)%Qc → rsi_of (cell_div (Fin p) (Fin 0%Qc)) = c100.
Proof. intros Hp. by rewrite cell_div_pos_zero, rsi_of_pinf. Qed.

Lemma rsi_of_bounded g l :
  nonneg_cell g → nonneg_cell l → bounded_cell (rsi_of (cell_div g l)).
Proof.
  intros [->|(x & -> & Hx)] [->|(y & -> & Hy)]; try by left.
  destruct (decide (y = 0%Qc)) as [->|Hy0].
  - destruct (decide (0 < x)%Qc) as [Hx0|Hx0].
    + rewrite rsi_of_saturated by done. right. eexists. split; [done|].
      split; [apply Qc100_nonneg | apply Qcle_refl].
    + left. by rewrite cell_div_nonpos_zero.
  - right. rewrite cell_div_fin by done.
    assert (Hr : (0 ≤ x / y)%Qc).
    { unfold Qcdiv. apply Qcmult_nonneg_nonneg; [done|].
      apply Qclt_le_weak, Qcinv_pos.
      destruct (Qcle_lt_or_eq _ _ Hy) as [|Heq]; [done | by subst]. }
    rewrite rsi_of_fin by done.
    eexists. split; [done|].
    apply rsi_formula_bounds; [apply Qc100_nonneg | done].
Qed.

Lemma rsi_column_length w s : length (rsi_column w s) = length s.
Proof.
  unfold rsi_column, avg_gain, avg_loss.
  rewrite length_fmap, length_zip_with, !roll_mean_length, !prep_values_length.
  rewrite rsi_gain_raw_length, rsi_loss_raw_length. lia.
Qed.

Lemma rsi_column_lookup w s i g l :
  avg_gain w s !! i = Some g → avg_loss w s !! i = Some l →
  rsi_column w s !! i = Some (rsi_of (cell_div g l)).
Proof.
  intros Hg Hl. unfold rsi_column.
  by rewrite list_lookup_fmap, lookup_zip_with, Hg, Hl.
Qed.

Lemma rsi_column_lookup_inv w s i v :
  rsi_column w s !! i = Some v →
  ∃ g l, avg_gain w s !! i = Some g ∧ avg_loss w s !! i = Some l ∧
         v = rsi_of (cell_div g l).
Proof.
  unfold rsi_column. rewrite list_lookup_fmap. intros Hv.
  apply fmap_Some in Hv as (rs & Hrs & ->).
  apply lookup_zip_with_Some in Hrs as (g & l & -> & Hg & Hl).
  by exists g, l.
Qed.

(** ** Averages on constant prices *)

Lemma diff_constant x n j d :
  diff (replicate n (Fin x)) !! j = Some d → d = NaN ∨ d = Fin 0%Qc.
Proof.
  intros [[_ ->]|(j' & a & b & _ & Ha & Hb & ->)]%diff_lookup_inv; [by left|].
  apply lookup_replicate in Ha as [-> _]. apply lookup_replicate in Hb as [-> _].
  right. unfold cell_sub. simpl. by rewrite Qcplus_opp_r.
Qed.

Lemma constant_window_zero (f : cell → cell) x n w i :
  f NaN = c0 ∨ f NaN = Fin (- 0)%Qc →
  f (Fin 0%Qc) = c0 ∨ f (Fin 0%Qc) = Fin (- 0)%Qc →
  Forall (λ v, v = Some 0%Qc)
    (window w i (prep_values (f <$> diff (replicate n (Fin x))))).
Proof.
  intros Hnan Hzero. apply window_Forall. intros j v _ Hv.
  unfold prep_values in Hv. rewrite <- list_fmap_compose in Hv.
  rewrite list_lookup_fmap in Hv.
  apply fmap_Some in Hv as (d & Hd & ->). simpl.
  apply diff_constant in Hd as [-> | ->].
  - destruct Hnan as [-> | ->]; simpl; [done | by rewrite Qcopp_0].
  - destruct Hzero as [-> | ->]; simpl; [done | by rewrite Qcopp_0].
Qed.

Lemma avg_constant (f : cell → cell) x n (w : Z) i :
  f NaN = c0 ∨ f NaN = Fin (- 0)%Qc →
  f (Fin 0%Qc) = c0 ∨ f (Fin 0%Qc) = Fin (- 0)%Qc →
  (1 ≤ w)%Z → (w - 1 ≤ Z.of_nat i)%Z → i < n →
  roll_mean (Z.to_nat w) (prep_values (f <$> diff (replicate n (Fin x)))) !! i
  = Some (Fin 0%Qc).
Proof.
  intros Hnan Hzero Hw Hi Hn.
  assert (Hlen : length (prep_values (f <$> diff (replicate n (Fin x)))) = n).
  { by rewrite prep_values_length, length_fmap, diff_length, length_replicate. }
  rewrite roll_mean_lookup by lia. f_equal.
  apply calc_mean_zero; [lia | | by apply constant_window_zero].
  rewrite window_length by lia. lia.
Qed.

(** ** Averages on increasing prices *)

Lemma diff_increasing xs j d :
  increasing xs → 1 ≤ j → diff (Fin <$> xs) !! j = Some d →
  ∃ x, d = Fin x ∧ (0 < x)%Qc.
Proof.
  intros Hinc Hj [[-> _]|(j' & a & b & _ & Ha & Hb & ->)]%diff_lookup_inv;
    [lia|].
  rewrite list_lookup_fmap in Ha, Hb.
  apply fmap_Some in Ha as (xa & Ha & ->).
  apply fmap_Some in Hb as (xb & Hb & ->).
  exists (xa + - xb)%Qc. split; [done|].
  apply (proj1 (Qclt_minus_iff xb xa)). by apply (Hinc j').
Qed.

Lemma increasing_window (f : cell → cell) (P : option Qc → Prop) xs w i :
  increasing xs → 1 ≤ w → w ≤ i →
  (∀ x, (0 < x)%Qc → P (to_obs (f (Fin x)))) →
  Forall P (window w i (prep_values (f <$> diff (Fin <$> xs)))).
Proof.
  intros Hinc Hw Hi Hf. apply window_Forall. intros j v Hj Hv.
  unfold prep_values in Hv. rewrite <- list_fmap_compose in Hv.
  rewrite list_lookup_fmap in Hv.
  apply fmap_Some in Hv as (d & Hd & ->). simpl.
  apply diff_increasing in Hd as (x & -> & Hx); [|done|lia].
  by apply Hf.
Qed.

Lemma avg_gain_increasing (w : Z) xs i :
  increasing xs → (1 ≤ w)%Z → (w ≤ Z.of_nat i)%Z → i < length xs →
  ∃ p, avg_gain w (Fin <$> xs) !! i = Some (Fin p) ∧ (0 < p)%Qc.
Proof.
  intros Hinc Hw Hi Hn. unfold avg_gain. rewrite rsi_gain_raw_eq.
  set (vals := prep_values (gain1 <$> diff (Fin <$> xs))).
  assert (Hlen : length vals = length xs).
  { unfold vals.
    by rewrite prep_values_length, length_fmap, diff_length, length_fmap. }
  assert (HW : Forall (λ v, ∃ x, v = Some x ∧ (0 < x)%Qc)
                 (window (Z.to_nat w) i vals)).
  { apply increasing_window; [done | lia | lia |].
    intros x Hx. exists x. by rewrite gain1_pos. }
  assert (HWlen : length (window (Z.to_nat w) i vals) = Z.to_nat w).
  { rewrite window_length by lia. lia. }
  rewrite roll_mean_lookup by lia.
  eexists. split.
  - f_equal. unfold calc_mean, stats. simpl.
    rewrite count_obs_all.
    2:{ eapply Forall_impl; [done|]. by intros v (x & -> & _). }
    rewrite HWlen. by rewrite decide_True by lia.
  - unfold Qcdiv. apply Qcmult_pos_pos.
    + apply sum_obs_pos; [done|].
      intros Hnil. rewrite Hnil in HWlen. simpl in HWlen. lia.
    + apply Qcinv_pos, Qc_of_Z_pos. lia.
Qed.

Lemma avg_loss_increasing (w : Z) xs i :
  increasing xs → (1 ≤ w)%Z → (w ≤ Z.of_nat i)%Z → i < length xs →
  avg_loss w (Fin <$> xs) !! i = Some (Fin 0%Qc).
Proof.
  intros Hinc Hw Hi Hn. unfold avg_loss. rewrite rsi_loss_raw_eq.
  set (vals := prep_values (loss1 <$> diff (Fin <$> xs))).
  assert (Hlen : length vals = length xs).
  { unfold vals.
    by rewrite prep_values_length, length_fmap, diff_length, length_fmap. }
  rewrite roll_mean_lookup by lia. f_equal.
  apply calc_mean_zero; [lia | |].
  - rewrite window_length by lia. lia.
  - apply increasing_window; [done | lia | lia |].
    intros x Hx. by rewrite loss1_pos.
Qed.

Lemma increasing_example : increasing (Qc_of_Z <$> [1; 2; 4; 7]%Z).
Proof.
  intros i a b Ha Hb.
  destruct i as [|[|[|[|i]]]]; simpl in Ha, Hb; simplify_eq;
    by apply (proj1 (Z2Qc_inj_lt _ _)).
Qed.

(** ** Comparisons and the signal column *)

Lemma cell_gt_le_excl s l : cell_gt s l = true → cell_le s l = false.
Proof.
  unfold cell_gt. destruct s, l; simpl; try done.
  intros H%bool_decide_eq_true. apply bool_decide_eq_false.
  by apply Qclt_not_le.
Qed.

Lemma cell_le_total s l :
  cell_gt s l = false → is_nan s = false → is_nan l = false →
  cell_le s l = true.
Proof.
  unfold cell_gt. destruct s, l; simpl; try done.
  intros H%bool_decide_eq_false _ _. apply bool_decide_eq_true.
  by apply Qcnot_lt_le.
Qed.

Lemma cell_le_nan s l : is_nan s || is_nan l = true → cell_le s l = false.
Proof. by destruct s, l. Qed.

Lemma signal_at_cases s l :
  signal_at s l = 1%Z ∨ signal_at s l = (-1)%Z ∨ signal_at s l = 0%Z.
Proof. unfold signal_at. repeat case_match; auto. Qed.

Lemma signal_at_zero s l :
  signal_at s l = 0%Z ↔ is_nan s = true ∨ is_nan l = true.
Proof.
  unfold signal_at. destruct (cell_gt s l) eqn:Hgt.
  - split; [done|]. unfold cell_gt in Hgt.
    intros [H|H]; by destruct s, l.
  - destruct (is_nan s), (is_nan l); simpl; split; auto; try done.
    intros [?|?]; done.
Qed.

Lemma signal_column_lookup n S L i s l :
  i < n → S !! i = Some s → L !! i = Some l →
  signal_column n S L !! i = Some (signal_at s l).
Proof.
  intros Hi HS HL. unfold signal_column.
  rewrite !mask_assign_lookup, !lookup_zip_with, HS, HL. simpl.
  rewrite lookup_replicate_2 by done. simpl. unfold signal_at.
  destruct (cell_gt s l) eqn:Hgt.
  - by rewrite (cell_gt_le_excl _ _ Hgt).
  - destruct (is_nan s || is_nan l) eqn:Hnan.
    + by rewrite (cell_le_nan _ _ Hnan).
    + apply orb_false_iff in Hnan as [??]. by rewrite cell_le_total.
Qed.

Lemma signal_column_length n S L : length (signal_column n S L) = n.
Proof. unfold signal_column. by rewrite !mask_assign_length, length_replicate. Qed.

(** ** What each call does to the frame *)

Lemma calculate_moving_averages_run d c (sw lw : Z) :
  columns d !! "Close" = Some c → (0 ≤ sw)%Z → (0 ≤ lw)%Z →
  calculate_moving_averages sw lw d =
  Ok tt (set_column "Long_MA"
           (Float64 (roll_mean (Z.to_nat lw) (prep_values (as_float c))))
           (set_column "Short_MA"
              (Float64 (roll_mean (Z.to_nat sw) (prep_values (as_float c)))) d)).
Proof.
  intros Hc Hsw Hlw. unfold calculate_moving_averages, rolling_mean. run_M.
  rewrite Hc. simpl. rewrite decide_False by lia. simpl.
  rewrite lookup_insert_ne by done. rewrite Hc. simpl.
  rewrite decide_False by lia. done.
Qed.

Lemma calculate_rsi_run d c (w : Z) :
  columns d !! "Close" = Some c → (0 ≤ w)%Z →
  calculate_rsi w d =
  Ok tt (set_column "RSI" (Float64 (rsi_column w (as_float c))) d).
Proof.
  intros Hc Hw. unfold calculate_rsi, rolling_mean. run_M.
  rewrite Hc. simpl. repeat (rewrite decide_False by lia; simpl). done.
Qed.

Lemma calculate_macd_run d c (sw lw gw : Z) :
  columns d !! "Close" = Some c → (1 ≤ sw)%Z → (1 ≤ lw)%Z → (1 ≤ gw)%Z →
  calculate_macd sw lw gw d =
  Ok tt (set_column "Signal_Line"
           (Float64 (signal_line_column sw lw gw (as_float c)))
           (set_column "MACD" (Float64 (macd_column sw lw (as_float c))) d)).
Proof.
  intros Hc Hsw Hlw Hgw. unfold calculate_macd, ewm_mean. run_M.
  repeat (progress (simpl; rewrite ?lookup_insert_eq, ?Hc;
                    repeat rewrite decide_False by lia)).
  done.
Qed.

Lemma calculate_rsi_no_close d w :
  columns d !! "Close" = None → calculate_rsi w d = Raise (KeyError "Close") d.
Proof. intros Hc. unfold calculate_rsi. run_M. by rewrite Hc. Qed.

Lemma calculate_macd_no_close d sw lw gw :
  columns d !! "Close" = None →
  calculate_macd sw lw gw d = Raise (KeyError "Close") d.
Proof. intros Hc. unfold calculate_macd. run_M. by rewrite Hc. Qed.

Lemma identify_signals_run d s l :
  columns d !! "Short_MA" = Some s →
  columns d !! "Long_MA" = Some l →
  identify_signals d =
  Ok tt (set_column "Signal"
           (Int64 (signal_column (length (index d)) (as_float s) (as_float l)))
           d).
Proof.
  intros Hs Hl.
  unfold identify_signals, setitem_masked, compare_columns. run_M.
  repeat (progress (simpl; rewrite ?lookup_insert_eq;
                    rewrite ?lookup_insert_ne by done; rewrite ?Hs, ?Hl)).
  unfold set_column. simpl. f_equal. f_equal.
  by rewrite !insert_insert_eq.
Qed.

Lemma identify_signals_no_short d :
  columns d !! "Short_MA" = None →
  identify_signals d =
  Raise (KeyError "Short_MA")
        (set_column "Signal" (Int64 (replicate (length (index d)) 0%Z)) d).
Proof.
  intros Hs. unfold identify_signals, setitem_masked, compare_columns. run_M.
  repeat (progress (simpl; rewrite ?lookup_insert_eq;
                    rewrite ?lookup_insert_ne by done; rewrite ?Hs)).
  done.
Qed.

Lemma identify_signals_no_long d s :
  columns d !! "Short_MA" = Some s →
  columns d !! "Long_MA" = None →
  identify_signals d =
  Raise (KeyError "Long_MA")
        (set_column "Signal" (Int64 (replicate (length (index d)) 0%Z)) d).
Proof.
  intros Hs Hl. unfold identify_signals, setitem_masked, compare_columns. run_M.
  repeat (progress (simpl; rewrite ?lookup_insert_eq;
                    rewrite ?lookup_insert_ne by done; rewrite ?Hs, ?Hl)).
  done.
Qed.

Lemma identify_signals_spec (d : frame) (s l : column) :
  wf_frame d →
  columns d !! "Short_MA" = Some s → columns d !! "Long_MA" = Some l →
  let sig := signal_column (length (index d)) (as_float s) (as_float l) in
  identify_signals d = Ok tt (set_column "Signal" (Int64 sig) d) ∧
  length sig = length (index d) ∧
  ∀ i, i < length (index d) →
    ∃ a b, as_float s !! i = Some a ∧ as_float l !! i = Some b ∧
           sig !! i = Some (signal_at a b).
Proof.
  intros Hwf Hs Hl sig. split; [by apply identify_signals_run|].
  split; [apply signal_column_length|].
  intros i Hi.
  pose proof (Hwf _ _ Hs) as Hls. pose proof (Hwf _ _ Hl) as Hll.
  rewrite <- as_float_length in Hls, Hll.
  destruct (lookup_lt_is_Some_2 (as_float s) i) as [a Ha]; [lia|].
  destruct (lookup_lt_is_Some_2 (as_float l) i) as [b Hb]; [lia|].
  exists a, b. split_and!; [done..|]. by apply signal_column_lookup.
Qed.

Lemma analyze_run d c :
  columns d !! "Close" = Some c →
  let close := as_float c in
  let sma := roll_mean 50 (prep_values close) in
  let lma := roll_mean 200 (prep_values close) in
  analyze d =
  Ok tt (set_column "Signal" (Int64 (signal_column (length (index d)) sma lma))
        (set_column "Signal_Line" (Float64 (signal_line_column 12 26 9 close))
        (set_column "MACD" (Float64 (macd_column 12 26 close))
        (set_column "RSI" (Float64 (rsi_column 14 close))
        (set_column "Long_MA" (Float64 lma)
        (set_column "Short_MA" (Float64 sma) d)))))).
Proof.
  intros Hc close sma lma. unfold analyze, mbind, M_bind.
  rewrite (calculate_moving_averages_run d c) by (done || lia).
  rewrite (calculate_rsi_run _ c); [|simpl; by rewrite !lookup_insert_ne|lia].
  rewrite (calculate_macd_run _ c);
    [|simpl; by rewrite !lookup_insert_ne|lia..].
  rewrite (identify_signals_run _ (Float64 sma) (Float64 lma)); [done|simpl..].
  - rewrite !(lookup_insert_ne _ "Signal_Line"), !(lookup_insert_ne _ "MACD"),
      !(lookup_insert_ne _ "RSI"), !(lookup_insert_ne _ "Long_MA") by done.
    by rewrite lookup_insert_eq.
  - rewrite !(lookup_insert_ne _ "Signal_Line"), !(lookup_insert_ne _ "MACD"),
      !(lookup_insert_ne _ "RSI") by done.
    by rewrite lookup_insert_eq.
Qed.

(** ** Assigning columns keeps the rest of the frame *)

Lemma set_column_wf k c d :
  wf_frame d → col_length c = length (index d) → wf_frame (set_column k c d).
Proof.
  intros Hwf Hc k' c'. unfold set_column. simpl.
  rewrite lookup_insert. case_decide; [by intros [= <-] | apply Hwf].
Qed.

Lemma set_column_commute k1 c1 k2 c2 d :
  k1 ≠ k2 →
  set_column k1 c1 (set_column k2 c2 d) = set_column k2 c2 (set_column k1 c1 d).
Proof.
  intros Hne. unfold set_column. simpl. f_equal. by apply insert_insert_ne.
Qed.

Lemma frame_preserved_set1 k c d :
  frame_preserved {[k]} d (set_column k c d).
Proof.
  repeat split; simpl.
  - intros k' Hk'. apply lookup_insert_ne. intros ->.
    apply Hk'. by apply elem_of_singleton.
  - rewrite dom_insert_L. apply (comm_L (∪)).
Qed.

Lemma frame_preserved_set2 k1 c1 k2 c2 d :
  frame_preserved {[k1; k2]} d (set_column k2 c2 (set_column k1 c1 d)).
Proof.
  repeat split; simpl.
  - intros k' Hk'.
    apply not_elem_of_union in Hk' as [H1%not_elem_of_singleton
                                       H2%not_elem_of_singleton].
    by rewrite !lookup_insert_ne.
  - rewrite !dom_insert_L.
    rewrite (comm_L (∪) {[k2]}), (assoc_L (∪)), (comm_L (∪) {[k1]}).
    by rewrite <- (assoc_L (∪)).
Qed.

Lemma price_frame_wf closes : wf_frame (price_frame closes).
Proof.
  intros k c. unfold price_frame. simpl.
  intros [<- <-]%lookup_singleton_Some. simpl.
  by rewrite !length_fmap, length_seq.
Qed.

(** * The stated properties *)

(** ** Signal derivation *)

(** C1 (as the code has it). On a frame that holds the two moving-average
    columns, [identify_signals] returns, and the signal at each date is +1
    where [Short_MA > Long_MA], -1 where both averages are defined and
    [Short_MA <= Long_MA], and 0, the value the column is created with,
    where either average is undefined: a comparison with NaN is false both
    for [>] and for [<=], so neither assignment touches those dates. *)
Theorem signal_derivation (d : frame) (s l : column) :
  wf_frame d →
  columns d !! "Short_MA" = Some s → columns d !! "Long_MA" = Some l →
  ∃ sig,
    identify_signals d = Ok tt (set_column "Signal" (Int64 sig) d) ∧
    length sig = length (index d) ∧
    ∀ i a b, as_float s !! i = Some a → as_float l !! i = Some b →
      (cell_gt a b = true → sig !! i = Some 1%Z) ∧
      (is_nan a = true ∨ is_nan b = true → sig !! i = Some 0%Z) ∧
      (cell_gt a b = false → is_nan a = false → is_nan b = false →
         sig !! i = Some (-1)%Z).
Proof.
  intros Hwf Hs Hl.
  destruct (identify_signals_spec d s l Hwf Hs Hl) as (Hrun & Hlen & Hpt).
  eexists. split_and!; [done..|].
  intros i a b Ha Hb.
  destruct (Hpt i) as (a' & b' & Ha' & Hb' & Hsig).
  { apply lookup_lt_Some in Ha. rewrite as_float_length in Ha.
    by rewrite <- (Hwf _ _ Hs). }
  simplify_eq. rewrite Hsig. split_and!.
  - intros Hgt. unfold signal_at. by rewrite Hgt.
  - intros Hnan. f_equal. by apply signal_at_zero.
  - intros Hgt Hna Hnb. unfold signal_at. by rewrite Hgt, Hna, Hnb.
Qed.

Lemma signal_derivation_witness :
  ∃ sig,
    identify_signals (ma_frame [NaN; qz 3] [NaN; qz 2])
    = Ok tt (set_column "Signal" (Int64 sig)
               (ma_frame [NaN; qz 3] [NaN; qz 2])) ∧
    sig !! 0 = Some 0%Z ∧ sig !! 1 = Some 1%Z.
Proof.
  destruct (signal_derivation (ma_frame [NaN; qz 3] [NaN; qz 2])
              (Float64 [NaN; qz 3]) (Float64 [NaN; qz 2]))
    as (sig & Hrun & _ & Hpt).
  - intros k c. unfold ma_frame. simpl.
    rewrite lookup_insert. case_decide; [by intros [= <-]|].
    by intros [<- <-]%lookup_singleton_Some.
  - reflexivity.
  - reflexivity.
  - exists sig. split; [done|]. split.
    + apply (Hpt 0 NaN NaN); auto.
    + apply (Hpt 1 (qz 3) (qz 2)); auto.
Defined.

(** The statement of C1 fails on the code: with windows 1 and 2 over the
    prices 1, 2 the long average is undefined at the first date, and the
    signal there is 0, not -1. *)
Lemma signal_derivation_counterexample :
  let d' := final_frame ((calculate_moving_averages 1 2;; identify_signals)
                           (price_frame [1; 2]%Z)) in
  (float_column "Long_MA" d' ≫= (.!! 0)) = Some NaN ∧
  (signal_values d' ≫= (.!! 0)) = Some 0%Z ∧
  (signal_values d' ≫= (.!! 0)) ≠ Some (-1)%Z.
Proof. vm_compute. split_and!; [reflexivity | reflexivity | discriminate]. Qed.

(** ** RSI: the indeterminate ratio *)

(** C2. Whenever the frame has a [Close] column and the window is not
    negative, [calculate_rsi] returns without raising, whatever the prices.
    At every index where the average gain and the average loss are both
    zero the stored RSI is undefined (NaN: the ratio 0/0 is NaN and the
    formula propagates it).  On a constant close series this is the case at
    every index from [window - 1] on, where the two windows are full. *)
Theorem rsi_indeterminate_ratio (d : frame) (c : column) (w : Z) :
  columns d !! "Close" = Some c → (0 ≤ w)%Z →
  ∃ rsi,
    calculate_rsi w d = Ok tt (set_column "RSI" (Float64 rsi) d) ∧
    length rsi = length (as_float c) ∧
    (∀ i, avg_gain w (as_float c) !! i = Some (Fin 0%Qc) →
          avg_loss w (as_float c) !! i = Some (Fin 0%Qc) →
          rsi !! i = Some NaN) ∧
    (∀ x n i, as_float c = replicate n (Fin x) →
       (1 ≤ w)%Z → (w - 1 ≤ Z.of_nat i)%Z → i < n →
       avg_gain w (as_float c) !! i = Some (Fin 0%Qc) ∧
       avg_loss w (as_float c) !! i = Some (Fin 0%Qc) ∧
       rsi !! i = Some NaN).
Proof.
  intros Hc Hw. exists (rsi_column w (as_float c)).
  split; [by apply calculate_rsi_run|].
  split; [apply rsi_column_length|].
  assert (Hzero : ∀ i, avg_gain w (as_float c) !! i = Some (Fin 0%Qc) →
          avg_loss w (as_float c) !! i = Some (Fin 0%Qc) →
          rsi_column w (as_float c) !! i = Some NaN).
  { intros i Hg Hl. rewrite (rsi_column_lookup _ _ _ _ _ Hg Hl).
    by rewrite cell_div_zero_zero. }
  split; [done|].
  intros x n i Hconst Hw1 Hi Hn.
  assert (Hg : avg_gain w (as_float c) !! i = Some (Fin 0%Qc)).
  { unfold avg_gain. rewrite Hconst, rsi_gain_raw_eq.
    apply avg_constant; try done; by left. }
  assert (Hl : avg_loss w (as_float c) !! i = Some (Fin 0%Qc)).
  { unfold avg_loss. rewrite Hconst, rsi_loss_raw_eq.
    apply avg_constant; try done; by right. }
  split_and!; [done..|]. by apply Hzero.
Qed.

Lemma rsi_indeterminate_ratio_witness :
  ∃ rsi,
    calculate_rsi 3 (price_frame [5; 5; 5; 5]%Z)
    = Ok tt (set_column "RSI" (Float64 rsi) (price_frame [5; 5; 5; 5]%Z)) ∧
    rsi !! 2 = Some NaN ∧ rsi !! 3 = Some NaN.
Proof.
  destruct (rsi_indeterminate_ratio (price_frame [5; 5; 5; 5]%Z)
              (Float64 (qz <$> [5; 5; 5; 5]%Z)) 3)
    as (rsi & Hrun & _ & _ & Hconst); [reflexivity | lia |].
  exists rsi. split; [done|]. split.
  - apply (Hconst (Qc_of_Z 5) 4 2); [reflexivity | lia..].
  - apply (Hconst (Qc_of_Z 5) 4 3); [reflexivity | lia..].
Defined.

(** ** The precondition of [identify_signals] *)

(** C3 (as the code has it). When [Short_MA] or [Long_MA] is absent,
    [identify_signals] never returns: the lookup of the absent column raises
    [KeyError] with that label, the first absent one in the order
    [Short_MA], [Long_MA]; at that point the frame already holds the Signal
    column filled with 0, and nothing else has changed. *)
Theorem identify_signals_missing_average (d : frame) :
  columns d !! "Short_MA" = None ∨ columns d !! "Long_MA" = None →
  ∃ k,
    identify_signals d
    = Raise (KeyError k)
        (set_column "Signal" (Int64 (replicate (length (index d)) 0%Z)) d) ∧
    columns d !! k = None ∧
    (k = "Short_MA" ∨
     k = "Long_MA" ∧ is_Some (columns d !! "Short_MA")).
Proof.
  intros Hmiss.
  destruct (columns d !! "Short_MA") as [s|] eqn:Hs.
  - destruct Hmiss as [|Hl]; [done|].
    exists "Long_MA". split_and!; [|done|right; split; [done | by eexists]].
    by apply (identify_signals_no_long d s).
  - exists "Short_MA". split_and!; [|done|by left].
    by apply identify_signals_no_short.
Qed.

Lemma identify_signals_missing_average_witness :
  ∃ k, identify_signals (price_frame [1; 2]%Z)
       = Raise (KeyError k)
           (set_column "Signal" (Int64 [0; 0]%Z) (price_frame [1; 2]%Z)).
Proof.
  destruct (identify_signals_missing_average (price_frame [1; 2]%Z))
    as (k & Hrun & _); [by left|].
  by exists k.
Defined.

(** The statement of C3 fails on the code: the exception is a [KeyError],
    no [PreconditionError] exists, and the caller's frame has gained a
    Signal column of zeros. *)
Lemma identify_signals_missing_average_counterexample :
  let r := identify_signals (price_frame [1; 2]%Z) in
  raised r = Some (KeyError "Short_MA") ∧
  exn_class <$> raised r ≠ Some "PreconditionError" ∧
  signal_values (final_frame r) = Some [0; 0]%Z ∧
  signal_values (price_frame [1; 2]%Z) = None.
Proof. vm_compute. split_and!; [reflexivity | discriminate | reflexivity..]. Qed.

(** ** Range of the signal and the recommendation *)

(** C4 (as the code has it). The Signal column takes only the values +1, -1
    and 0; it is 0 exactly at the dates where one of the two averages is
    undefined; and the recommendation read from the last row is HOLD exactly
    when that last signal is 0, BUY when it is +1 and SELL when it is -1. *)
Theorem signal_range (d : frame) (s l : column) :
  wf_frame d →
  columns d !! "Short_MA" = Some s → columns d !! "Long_MA" = Some l →
  ∃ d' sig,
    identify_signals d = Ok tt d' ∧ signal_values d' = Some sig ∧
    (∀ i z, sig !! i = Some z → z = 1%Z ∨ z = (-1)%Z ∨ z = 0%Z) ∧
    (∀ i a b, as_float s !! i = Some a → as_float l !! i = Some b →
       (sig !! i = Some 0%Z ↔ is_nan a = true ∨ is_nan b = true)) ∧
    (∀ z, last_signal d' = Some z →
       (recommend z = HOLD ↔ z = 0%Z) ∧
       (recommend z = BUY ↔ z = 1%Z) ∧
       (recommend z = SELL ↔ z = (-1)%Z)).
Proof.
  intros Hwf Hs Hl.
  destruct (identify_signals_spec d s l Hwf Hs Hl) as (Hrun & Hlen & Hpt).
  eexists _, _. split; [done|]. split.
  { unfold signal_values. simpl. by rewrite lookup_insert_eq. }
  assert (Hrange : ∀ i z,
    signal_column (length (index d)) (as_float s) (as_float l) !! i = Some z →
    z = 1%Z ∨ z = (-1)%Z ∨ z = 0%Z).
  { intros i z Hz.
    destruct (Hpt i) as (a & b & _ & _ & Hsig).
    { apply lookup_lt_Some in Hz. by rewrite <- Hlen. }
    rewrite Hsig in Hz. injection Hz as <-. apply signal_at_cases. }
  split_and!.
  - done.
  - intros i a b Ha Hb.
    destruct (Hpt i) as (a' & b' & Ha' & Hb' & Hsig).
    { apply lookup_lt_Some in Ha. rewrite as_float_length in Ha.
      by rewrite <- (Hwf _ _ Hs). }
    simplify_eq. rewrite Hsig. rewrite <- signal_at_zero.
    split; [by intros [= ->] | by intros ->].
  - intros z Hz. unfold last_signal, signal_values in Hz. simpl in Hz.
    rewrite lookup_insert_eq in Hz. simpl in Hz.
    apply last_Some in Hz as [pre Hz].
    destruct (Hrange (length pre) z) as [-> | [-> | ->]]; [|done..].
    rewrite Hz. by rewrite lookup_app_r, Nat.sub_diag.
Qed.

Lemma signal_range_witness :
  ∃ d' sig,
    identify_signals (ma_frame [NaN; qz 3] [NaN; qz 2]) = Ok tt d' ∧
    signal_values d' = Some sig ∧
    (∀ i z, sig !! i = Some z → z = 1%Z ∨ z = (-1)%Z ∨ z = 0%Z).
Proof.
  destruct (signal_range (ma_frame [NaN; qz 3] [NaN; qz 2])
              (Float64 [NaN; qz 3]) (Float64 [NaN; qz 2]))
    as (d' & sig & Hrun & Hsig & Hrange & _).
  - intros k c. unfold ma_frame. simpl.
    rewrite lookup_insert. case_decide; [by intros [= <-]|].
    by intros [<- <-]%lookup_singleton_Some.
  - reflexivity.
  - reflexivity.
  - by exists d', sig.
Defined.

(** The statement of C4 fails on the code: three prices run through the
    pipeline with its default windows (50 and 200) leave both averages
    undefined, the Signal column is 0 at every date, and the recommendation
    is HOLD. *)
Lemma signal_range_counterexample :
  let d' := final_frame (analyze (price_frame [10; 11; 12]%Z)) in
  raised (analyze (price_frame [10; 11; 12]%Z)) = None ∧
  signal_values d' = Some [0; 0; 0]%Z ∧
  recommend <$> last_signal d' = Some HOLD.
Proof. vm_compute. split_and!; reflexivity. Qed.


(** ** Moving averages *)

(** C5. For windows [sw, lw >= 1] and every close series,
    [calculate_moving_averages] returns without raising, whatever the length
    of the series, and stores two columns as long as the series.  In
    [Short_MA] the entries at the indices [i < sw - 1] are undefined (NaN),
    and at every index [i >= sw - 1] whose window [close[i-sw+1 .. i]]
    consists of numbers [ys] (there are [sw] of them) the entry is their
    arithmetic mean; when the series is shorter than the window the whole
    column is undefined.  The same holds for [Long_MA] with [lw]. *)
Theorem moving_average_prefix_and_value (d : frame) (c : column) (sw lw : Z) :
  (1 ≤ sw)%Z → (1 ≤ lw)%Z → columns d !! "Close" = Some c →
  ∃ sma lma,
    calculate_moving_averages sw lw d
    = Ok tt (set_column "Long_MA" (Float64 lma)
               (set_column "Short_MA" (Float64 sma) d)) ∧
    ∀ w ma, (w = sw ∧ ma = sma) ∨ (w = lw ∧ ma = lma) →
      length ma = length (as_float c) ∧
      (∀ i, i < length (as_float c) → (Z.of_nat i < w - 1)%Z →
         ma !! i = Some NaN) ∧
      (∀ i ys, i < length (as_float c) → (w - 1 ≤ Z.of_nat i)%Z →
         window (Z.to_nat w) i (as_float c) = Fin <$> ys →
         length ys = Z.to_nat w ∧ ma !! i = Some (Fin (mean ys))) ∧
      ((Z.of_nat (length (as_float c)) < w)%Z →
         ma = replicate (length (as_float c)) NaN).
Proof.
  intros Hsw Hlw Hc. eexists _, _. split.
  { apply (calculate_moving_averages_run d c); [done | lia..]. }
  assert (Hall : ∀ w, (1 ≤ w)%Z →
    let ma := roll_mean (Z.to_nat w) (prep_values (as_float c)) in
    length ma = length (as_float c) ∧
    (∀ i, i < length (as_float c) → (Z.of_nat i < w - 1)%Z →
       ma !! i = Some NaN) ∧
    (∀ i ys, i < length (as_float c) → (w - 1 ≤ Z.of_nat i)%Z →
       window (Z.to_nat w) i (as_float c) = Fin <$> ys →
       length ys = Z.to_nat w ∧ ma !! i = Some (Fin (mean ys))) ∧
    ((Z.of_nat (length (as_float c)) < w)%Z →
       ma = replicate (length (as_float c)) NaN)).
  { intros w Hw ma.
    assert (Hlen : length ma = length (as_float c)).
    { unfold ma. by rewrite roll_mean_length, prep_values_length. }
    assert (Hpre : ∀ i, i < length (as_float c) → (Z.of_nat i < w - 1)%Z →
                        ma !! i = Some NaN).
    { intros i Hi. by apply roll_mean_cases. }
    split_and!; [done | done | |].
    - intros i ys Hi. by apply roll_mean_cases.
    - intros Hshort. apply list_eq. intros i.
      destruct (decide (i < length (as_float c))) as [Hi|Hi].
      + rewrite lookup_replicate_2 by done. apply Hpre; [done | lia].
      + rewrite !lookup_ge_None_2; [done | rewrite ?length_replicate; lia..]. }
  intros w ma [[-> ->]|[-> ->]]; by apply Hall.
Qed.

Lemma moving_average_prefix_and_value_witness :
  ∃ sma lma,
    calculate_moving_averages 2 3 (price_frame [1; 2; 4; 8]%Z)
    = Ok tt (set_column "Long_MA" (Float64 lma)
               (set_column "Short_MA" (Float64 sma)
                  (price_frame [1; 2; 4; 8]%Z))) ∧
    sma !! 0 = Some NaN ∧
    sma !! 1 = Some (Fin (mean [Qc_of_Z 1; Qc_of_Z 2])) ∧
    lma !! 1 = Some NaN ∧
    lma !! 3 = Some (Fin (mean [Qc_of_Z 2; Qc_of_Z 4; Qc_of_Z 8])).
Proof.
  destruct (moving_average_prefix_and_value (price_frame [1; 2; 4; 8]%Z)
              (Float64 (qz <$> [1; 2; 4; 8]%Z)) 2 3)
    as (sma & lma & Hrun & Hma); [lia | lia | reflexivity |].
  exists sma, lma. split; [exact Hrun|].
  destruct (Hma 2%Z sma) as (_ & Hs_pre & Hs_val & _); [by left|].
  destruct (Hma 3%Z lma) as (_ & Hl_pre & Hl_val & _); [by right|].
  split_and!.
  - apply Hs_pre; simpl; lia.
  - apply (Hs_val 1); [simpl; lia | lia | reflexivity].
  - apply Hl_pre; simpl; lia.
  - apply (Hl_val 3); [simpl; lia | lia | reflexivity].
Defined.

(** ** RSI: range and saturation *)

(** C6. Whenever the frame has a [Close] column and the window is not
    negative, every entry of the RSI column [calculate_rsi] stores is either
    undefined (NaN) or a number in [0, 100], never an infinity; wherever the
    average loss is zero and the average gain is positive the entry is
    exactly 100; and on a strictly increasing close series with window
    [w >= 1] that is the case at every index [i >= w]. *)
Theorem rsi_bounded_and_saturating (d : frame) (c : column) (w : Z) :
  columns d !! "Close" = Some c → (0 ≤ w)%Z →
  ∃ rsi,
    calculate_rsi w d = Ok tt (set_column "RSI" (Float64 rsi) d) ∧
    (∀ i v, rsi !! i = Some v →
       v = NaN ∨ ∃ x, v = Fin x ∧ (0 ≤ x)%Qc ∧ (x ≤ Qc_of_Z 100)%Qc) ∧
    (∀ i p, avg_gain w (as_float c) !! i = Some (Fin p) → (0 < p)%Qc →
       avg_loss w (as_float c) !! i = Some (Fin 0%Qc) →
       rsi !! i = Some (Fin (Qc_of_Z 100))) ∧
    (∀ xs i, as_float c = Fin <$> xs → increasing xs →
       (1 ≤ w)%Z → (w ≤ Z.of_nat i)%Z → i < length xs →
       (∃ p, avg_gain w (as_float c) !! i = Some (Fin p) ∧ (0 < p)%Qc) ∧
       avg_loss w (as_float c) !! i = Some (Fin 0%Qc) ∧
       rsi !! i = Some (Fin (Qc_of_Z 100))).
Proof.
  intros Hc Hw. exists (rsi_column w (as_float c)).
  split; [by apply calculate_rsi_run|].
  assert (Hsat : ∀ i p,
    avg_gain w (as_float c) !! i = Some (Fin p) → (0 < p)%Qc →
    avg_loss w (as_float c) !! i = Some (Fin 0%Qc) →
    rsi_column w (as_float c) !! i = Some (Fin (Qc_of_Z 100))).
  { intros i p Hg Hp Hl. rewrite (rsi_column_lookup _ _ _ _ _ Hg Hl).
    by rewrite rsi_of_saturated. }
  split_and!; [|done|].
  - intros i v (g & l & Hg & Hl & ->)%rsi_column_lookup_inv.
    apply rsi_of_bounded.
    + eapply roll_mean_nonneg; [apply gain_obs_nonneg | done].
    + eapply roll_mean_nonneg; [apply loss_obs_nonneg | done].
  - intros xs i Hxs Hinc Hw1 Hi Hn. rewrite Hxs in Hsat |- *.
    destruct (avg_gain_increasing w xs i Hinc Hw1 Hi Hn) as (p & Hg & Hp).
    pose proof (avg_loss_increasing w xs i Hinc Hw1 Hi Hn) as Hl.
    split_and!; [by exists p | done | by apply (Hsat i p)].
Qed.

Lemma rsi_bounded_and_saturating_witness :
  ∃ rsi,
    calculate_rsi 2 (price_frame [1; 2; 4; 7]%Z)
    = Ok tt (set_column "RSI" (Float64 rsi) (price_frame [1; 2; 4; 7]%Z)) ∧
    rsi !! 2 = Some (Fin (Qc_of_Z 100)) ∧ rsi !! 3 = Some (Fin (Qc_of_Z 100)).
Proof.
  destruct (rsi_bounded_and_saturating (price_frame [1; 2; 4; 7]%Z)
              (Float64 (qz <$> [1; 2; 4; 7]%Z)) 2)
    as (rsi & Hrun & _ & _ & Hsat); [reflexivity | lia |].
  exists rsi. split; [done|]. split.
  - apply (Hsat (Qc_of_Z <$> [1; 2; 4; 7]%Z) 2);
      [reflexivity | apply increasing_example | lia | lia | simpl; lia].
  - apply (Hsat (Qc_of_Z <$> [1; 2; 4; 7]%Z) 3);
      [reflexivity | apply increasing_example | lia | lia | simpl; lia].
Defined.

(** The worked example of the design: closes 10, 11, 12, 11, 10, 9, 10, 11,
    12, 13, 14 with window 3; the first two RSI entries are undefined and
    the third is defined. *)
Lemma rsi_example_scenario :
  fmap (M := list) cell_Q <$>
    float_column "RSI"
      (final_frame
         (calculate_rsi 3
            (price_frame [10; 11; 12; 11; 10; 9; 10; 11; 12; 13; 14]%Z)))
  = Some [None; None; Some 100%Q; Some (200 # 3)%Q; Some (100 # 3)%Q;
          Some 0%Q; Some (100 # 3)%Q; Some (200 # 3)%Q; Some 100%Q;
          Some 100%Q; Some 100%Q].
Proof. vm_compute. reflexivity. Qed.

(** ** MACD and the exponential mean *)

(** C7. For admissible spans and every close series whose first entry is a
    number, [calculate_macd] returns and the MACD and Signal_Line columns are
    defined (finite) at every index, as long as the series; the exponential
    means are seeded with [close[0]], so [macd[0] = close[0] - close[0] = 0],
    and the signal line, seeded with [macd[0]], starts at 0 as well. *)
Theorem macd_defined_everywhere (d : frame) (sw lw gw : Z) (x0 : Qc)
    (rest : list cell) :
  (1 ≤ sw)%Z → (1 ≤ lw)%Z → (1 ≤ gw)%Z →
  float_column "Close" d = Some (Fin x0 :: rest) →
  ∃ d' macd signal_line,
    calculate_macd sw lw gw d = Ok tt d' ∧
    columns d' !! "MACD" = Some (Float64 macd) ∧
    columns d' !! "Signal_Line" = Some (Float64 signal_line) ∧
    length macd = S (length rest) ∧ length signal_line = S (length rest) ∧
    Forall (λ c, is_fin c = true) macd ∧
    Forall (λ c, is_fin c = true) signal_line ∧
    ewm (span_alpha sw) (prep_values (Fin x0 :: rest)) !! 0 = Some (Fin x0) ∧
    ewm (span_alpha lw) (prep_values (Fin x0 :: rest)) !! 0 = Some (Fin x0) ∧
    macd !! 0 = Some (Fin 0%Qc) ∧ signal_line !! 0 = Some (Fin 0%Qc).
Proof.
  intros Hsw Hlw Hgw Hclose. unfold float_column in Hclose.
  destruct (columns d !! "Close") as [c|] eqn:Hc; [|done].
  injection Hclose as Hcs.
  eexists _, _, _. split; [by apply (calculate_macd_run d c)|].
  simpl. rewrite lookup_insert_ne by done. rewrite !lookup_insert_eq.
  rewrite Hcs.
  destruct (macd_column_seeded sw lw x0 rest) as (tl & Hmacd & Htl).
  split_and!; try done.
  - by rewrite macd_column_length.
  - by rewrite signal_line_column_length.
  - rewrite Hmacd. by constructor.
  - unfold signal_line_column. rewrite Hmacd.
    change (prep_values (Fin 0%Qc :: tl)) with (Some 0%Qc :: prep_values tl).
    apply ewm_defined.
  - by rewrite Hmacd.
  - unfold signal_line_column. by rewrite Hmacd.
Qed.

Lemma macd_defined_everywhere_witness :
  ∃ d' macd signal_line,
    calculate_macd 12 26 9 (price_frame [5; 7; 6]%Z) = Ok tt d' ∧
    columns d' !! "MACD" = Some (Float64 macd) ∧
    columns d' !! "Signal_Line" = Some (Float64 signal_line) ∧
    macd !! 0 = Some (Fin 0%Qc) ∧ signal_line !! 0 = Some (Fin 0%Qc).
Proof.
  destruct (macd_defined_everywhere (price_frame [5; 7; 6]%Z) 12 26 9
              (Qc_of_Z 5) [qz 7; qz 6])
    as (d' & macd & sl & H); [lia | lia | lia | reflexivity |].
  exists d', macd, sl. by destruct_and!.
Defined.

(** C8. For every span [>= 1] the exponential mean the code computes on a
    series of numbers is the recurrence [ema[0] = x[0]],
    [ema[i] = alpha * x[i] + (1 - alpha) * ema[i-1]] with
    [alpha = 2 / (span + 1)], and on a constant series it returns that
    constant at every index. *)
Theorem ema_constant_fixed_point (span : Z) :
  (1 ≤ span)%Z →
  (∀ xs, ewm_mean span (Fin <$> xs)
         = inr (Fin <$> ema (2 / (Qc_of_Z span + 1))%Qc xs)) ∧
  (∀ c n, ewm_mean span (replicate n (Fin c)) = inr (replicate n (Fin c))).
Proof.
  intros Hspan.
  assert (Hfin : ∀ xs, ewm_mean span (Fin <$> xs)
                       = inr (Fin <$> ema (span_alpha span) xs)).
  { intros xs. unfold ewm_mean. rewrite decide_False by lia.
    by rewrite prep_values_Fin, ewm_finite. }
  split; [done|].
  intros c n. rewrite <- fmap_replicate, Hfin. by rewrite ema_constant.
Qed.

Lemma ema_constant_fixed_point_witness :
  ewm_mean 12 (replicate 4 (qz 7)) = inr (replicate 4 (qz 7)).
Proof. apply (ema_constant_fixed_point 12); lia. Defined.

(** ** Independence of the RSI and MACD calls *)

(** C9. For admissible parameters and every frame, running [calculate_rsi]
    and then [calculate_macd] gives the same outcome (the same frame, or the
    same exception on the same frame) as running them in the other order;
    and the columns either of them writes are the same whether or not
    [calculate_moving_averages] has run before. *)
Theorem rsi_macd_commute (d : frame) (w sw lw gw : Z) :
  (0 ≤ w)%Z → (1 ≤ sw)%Z → (1 ≤ lw)%Z → (1 ≤ gw)%Z →
  (calculate_rsi w;; calculate_macd sw lw gw) d
  = (calculate_macd sw lw gw;; calculate_rsi w) d ∧
  ∀ msw mlw k, (0 ≤ msw)%Z → (0 ≤ mlw)%Z → k ∈ rsi_labels ∪ macd_labels →
    columns (final_frame
      ((calculate_moving_averages msw mlw;;
        calculate_rsi w;; calculate_macd sw lw gw) d)) !! k
    = columns (final_frame
        ((calculate_rsi w;; calculate_macd sw lw gw) d)) !! k.
Proof.
  intros Hw Hsw Hlw Hgw.
  destruct (columns d !! "Close") as [c|] eqn:Hc.
  - assert (Hboth : ∀ d0, columns d0 !! "Close" = Some c →
      (calculate_rsi w;; calculate_macd sw lw gw) d0
      = Ok tt (set_column "Signal_Line"
                 (Float64 (signal_line_column sw lw gw (as_float c)))
                 (set_column "MACD" (Float64 (macd_column sw lw (as_float c)))
                    (set_column "RSI" (Float64 (rsi_column w (as_float c)))
                       d0)))).
    { intros d0 Hc0. unfold mbind, M_bind.
      rewrite (calculate_rsi_run d0 c) by done.
      rewrite (calculate_macd_run _ c); [done | | done..].
      simpl. by rewrite lookup_insert_ne. }
    split.
    + rewrite (Hboth d Hc). unfold mbind, M_bind.
      rewrite (calculate_macd_run d c) by done.
      rewrite (calculate_rsi_run _ c); [| | done].
      2:{ simpl. by rewrite !lookup_insert_ne. }
      f_equal.
      rewrite (set_column_commute "RSI" _ "Signal_Line") by done.
      by rewrite (set_column_commute "RSI" _ "MACD").
    + intros msw mlw k Hmsw Hmlw Hk. rewrite (Hboth d Hc).
      unfold mbind at 1. unfold M_bind at 1.
      rewrite (calculate_moving_averages_run d c) by done.
      rewrite Hboth by (simpl; by rewrite !lookup_insert_ne).
      simpl.
      apply elem_of_union in Hk as [Hk|Hk].
      * apply elem_of_singleton in Hk as ->.
        rewrite !(lookup_insert_ne _ "Signal_Line"),
          !(lookup_insert_ne _ "MACD") by done.
        by rewrite !lookup_insert_eq.
      * apply elem_of_union in Hk as [Hk|Hk];
          apply elem_of_singleton in Hk as ->.
        -- rewrite !(lookup_insert_ne _ "Signal_Line") by done.
           by rewrite !lookup_insert_eq.
        -- by rewrite !lookup_insert_eq.
  - split.
    + unfold mbind, M_bind.
      by rewrite calculate_rsi_no_close, calculate_macd_no_close.
    + intros msw mlw k _ _ _. unfold mbind, M_bind.
      rewrite calculate_rsi_no_close by done.
      unfold calculate_moving_averages. run_M. by rewrite Hc.
Qed.

Lemma rsi_macd_commute_witness :
  (calculate_rsi 14;; calculate_macd 12 26 9) (price_frame [3; 5; 4]%Z)
  = (calculate_macd 12 26 9;; calculate_rsi 14) (price_frame [3; 5; 4]%Z).
Proof.
  apply (rsi_macd_commute (price_frame [3; 5; 4]%Z) 14 12 26 9); lia.
Defined.

(** ** Frame conditions *)

(** C10. On a well-formed frame that satisfies the precondition of the call
    (a [Close] column and admissible window parameters; for
    [identify_signals] the two moving-average columns), each of the four
    functions returns a well-formed frame with the same index, in which
    every column other than the ones the function assigns is unchanged, and
    whose labels are the old ones plus the function's own. *)
Theorem stage_frame_property (d : frame) :
  wf_frame d →
  (∀ c sw lw, columns d !! "Close" = Some c → (0 ≤ sw)%Z → (0 ≤ lw)%Z →
     ∃ d', calculate_moving_averages sw lw d = Ok tt d' ∧
           frame_preserved ma_labels d d' ∧ wf_frame d') ∧
  (∀ c w, columns d !! "Close" = Some c → (0 ≤ w)%Z →
     ∃ d', calculate_rsi w d = Ok tt d' ∧
           frame_preserved rsi_labels d d' ∧ wf_frame d') ∧
  (∀ c sw lw gw, columns d !! "Close" = Some c →
     (1 ≤ sw)%Z → (1 ≤ lw)%Z → (1 ≤ gw)%Z →
     ∃ d', calculate_macd sw lw gw d = Ok tt d' ∧
           frame_preserved macd_labels d d' ∧ wf_frame d') ∧
  (∀ s l, columns d !! "Short_MA" = Some s → columns d !! "Long_MA" = Some l →
     ∃ d', identify_signals d = Ok tt d' ∧
           frame_preserved signal_labels d d' ∧ wf_frame d').
Proof.
  intros Hwf. split_and!.
  - intros c sw lw Hc Hsw Hlw. eexists. split.
    { by apply calculate_moving_averages_run. }
    pose proof (Hwf _ _ Hc) as Hlen. rewrite <- as_float_length in Hlen.
    split; [apply frame_preserved_set2|].
    repeat apply set_column_wf; try done; simpl;
      by rewrite roll_mean_length, prep_values_length.
  - intros c w Hc Hw. eexists. split.
    { by apply calculate_rsi_run. }
    pose proof (Hwf _ _ Hc) as Hlen. rewrite <- as_float_length in Hlen.
    split; [apply frame_preserved_set1|].
    apply set_column_wf; [done|]. simpl. by rewrite rsi_column_length.
  - intros c sw lw gw Hc Hsw Hlw Hgw. eexists. split.
    { by apply calculate_macd_run. }
    pose proof (Hwf _ _ Hc) as Hlen. rewrite <- as_float_length in Hlen.
    split; [apply frame_preserved_set2|].
    repeat apply set_column_wf; try done; simpl.
    + by rewrite macd_column_length.
    + by rewrite signal_line_column_length.
  - intros s l Hs Hl. eexists. split.
    { by apply identify_signals_run. }
    split; [apply frame_preserved_set1|].
    apply set_column_wf; [done|]. simpl. by rewrite signal_column_length.
Qed.

Lemma stage_frame_property_witness :
  ∃ d', calculate_rsi 2 (price_frame [3; 5; 4]%Z) = Ok tt d' ∧
        frame_preserved rsi_labels (price_frame [3; 5; 4]%Z) d' ∧ wf_frame d'.
Proof.
  destruct (stage_frame_property (price_frame [3; 5; 4]%Z)
              (price_frame_wf [3; 5; 4]%Z)) as (_ & Hrsi & _).
  apply (Hrsi (Float64 (qz <$> [3; 5; 4]%Z)) 2%Z); [reflexivity | lia].
Defined.

(** * Further properties of the code *)

(** ** Failures of the indicator functions *)

Lemma calculate_moving_averages_no_close d sw lw :
  columns d !! "Close" = None →
  calculate_moving_averages sw lw d = Raise (KeyError "Close") d.
Proof. intros Hc. unfold calculate_moving_averages. run_M. by rewrite Hc. Qed.

Lemma calculate_moving_averages_bad_short d c sw lw :
  columns d !! "Close" = Some c → (sw < 0)%Z →
  calculate_moving_averages sw lw d
  = Raise (ValueError "window must be an integer 0 or greater") d.
Proof.
  intros Hc Hsw. unfold calculate_moving_averages, rolling_mean. run_M.
  rewrite Hc. simpl. by rewrite decide_True by lia.
Qed.

Lemma calculate_moving_averages_bad_long d c sw lw :
  columns d !! "Close" = Some c → (0 ≤ sw)%Z → (lw < 0)%Z →
  calculate_moving_averages sw lw d
  = Raise (ValueError "window must be an integer 0 or greater")
      (set_column "Short_MA"
         (Float64 (roll_mean (Z.to_nat sw) (prep_values (as_float c)))) d).
Proof.
  intros Hc Hsw Hlw. unfold calculate_moving_averages, rolling_mean. run_M.
  rewrite Hc. simpl. rewrite decide_False by lia. simpl.
  rewrite lookup_insert_ne by done. rewrite Hc. simpl.
  by rewrite decide_True by lia.
Qed.

Lemma calculate_rsi_bad_window d c w :
  columns d !! "Close" = Some c → (w < 0)%Z →
  calculate_rsi w d
  = Raise (ValueError "window must be an integer 0 or greater") d.
Proof.
  intros Hc Hw. unfold calculate_rsi, rolling_mean. run_M.
  rewrite Hc. simpl. by rewrite decide_True by lia.
Qed.

Lemma calculate_macd_bad_short d c sw lw gw :
  columns d !! "Close" = Some c → (sw < 1)%Z →
  calculate_macd sw lw gw d
  = Raise (ValueError "span must satisfy: span >= 1") d.
Proof.
  intros Hc Hsw. unfold calculate_macd, ewm_mean. run_M.
  rewrite Hc. simpl. by rewrite decide_True by lia.
Qed.

Lemma calculate_macd_bad_long d c sw lw gw :
  columns d !! "Close" = Some c → (1 ≤ sw)%Z → (lw < 1)%Z →
  calculate_macd sw lw gw d
  = Raise (ValueError "span must satisfy: span >= 1") d.
Proof.
  intros Hc Hsw Hlw. unfold calculate_macd, ewm_mean. run_M.
  rewrite Hc. simpl. rewrite decide_False by lia. simpl.
  rewrite Hc. simpl. by rewrite decide_True by lia.
Qed.

Lemma calculate_macd_bad_signal d c sw lw gw :
  columns d !! "Close" = Some c → (1 ≤ sw)%Z → (1 ≤ lw)%Z → (gw < 1)%Z →
  calculate_macd sw lw gw d
  = Raise (ValueError "span must satisfy: span >= 1")
      (set_column "MACD" (Float64 (macd_column sw lw (as_float c))) d).
Proof.
  intros Hc Hsw Hlw Hgw. unfold calculate_macd, ewm_mean. run_M.
  rewrite Hc. simpl. rewrite decide_False by lia. simpl.
  rewrite Hc. simpl. rewrite decide_False by lia. simpl.
  rewrite lookup_insert_eq. simpl. by rewrite decide_True by lia.
Qed.

(** [calculate_moving_averages] returns exactly when the frame has a
    [Close] column and neither window is negative.  When it raises, it is
    either [KeyError] for [Close] or the [ValueError] of a negative window;
    the frame is untouched, except that a negative long window is only
    detected after [Short_MA] has been written. *)
Theorem moving_averages_failure_modes (d : frame) (sw lw : Z) :
  ((∃ d', calculate_moving_averages sw lw d = Ok tt d') ↔
   is_Some (columns d !! "Close") ∧ (0 ≤ sw)%Z ∧ (0 ≤ lw)%Z) ∧
  ∀ e d', calculate_moving_averages sw lw d = Raise e d' →
    (e = KeyError "Close" ∧ columns d !! "Close" = None ∧ d' = d) ∨
    (exn_class e = "ValueError" ∧ (sw < 0)%Z ∧ d' = d) ∨
    (exn_class e = "ValueError" ∧ (0 ≤ sw)%Z ∧ (lw < 0)%Z ∧
     ∃ c, columns d !! "Close" = Some c ∧
          d' = set_column "Short_MA"
                 (Float64 (roll_mean (Z.to_nat sw) (prep_values (as_float c))))
                 d).
Proof.
  destruct (columns d !! "Close") as [c|] eqn:Hc.
  - destruct (decide (sw < 0)%Z) as [Hsw|Hsw].
    { rewrite (calculate_moving_averages_bad_short d c) by done. split.
      - split; [by intros [? ?] | lia].
      - intros e d' [= <- <-]. right. by left. }
    destruct (decide (lw < 0)%Z) as [Hlw|Hlw].
    { rewrite (calculate_moving_averages_bad_long d c) by (done || lia). split.
      - split; [by intros [? ?] | lia].
      - intros e d' [= <- <-]. right. right.
        split_and!; [done | lia | done |]. by exists c. }
    rewrite (calculate_moving_averages_run d c) by (done || lia). split.
    + split; [intros _; split_and!; [by eexists | lia..] | by eexists].
    + by intros e d'.
  - rewrite calculate_moving_averages_no_close by done. split.
    + split; [by intros [? ?] | by intros [[? ?] _]].
    + intros e d' [= <- <-]. by left.
Qed.

Lemma moving_averages_failure_modes_witness :
  ∃ c, columns (price_frame [1; 2; 4]%Z) !! "Close" = Some c ∧
    final_frame (calculate_moving_averages 2 (-1) (price_frame [1; 2; 4]%Z))
    = set_column "Short_MA"
        (Float64 (roll_mean 2 (prep_values (as_float c))))
        (price_frame [1; 2; 4]%Z).
Proof.
  destruct (moving_averages_failure_modes (price_frame [1; 2; 4]%Z) 2 (-1))
    as [_ Hfail].
  destruct (Hfail (ValueError "window must be an integer 0 or greater")
              (final_frame
                 (calculate_moving_averages 2 (-1) (price_frame [1; 2; 4]%Z))))
    as [(He & _)|[(_ & Hsw & _)|(_ & _ & _ & c & Hc & Hd)]].
  - reflexivity.
  - discriminate He.
  - lia.
  - exists c. split; [exact Hc | exact Hd].
Defined.

(** [calculate_rsi] returns exactly when the frame has a [Close] column and
    the window is not negative; when it raises, the frame is left exactly
    as it was. *)
Theorem rsi_failure_is_atomic (d : frame) (w : Z) :
  ((∃ d', calculate_rsi w d = Ok tt d') ↔
   is_Some (columns d !! "Close") ∧ (0 ≤ w)%Z) ∧
  ∀ e d', calculate_rsi w d = Raise e d' →
    d' = d ∧
    (e = KeyError "Close" ∧ columns d !! "Close" = None ∨
     exn_class e = "ValueError" ∧ (w < 0)%Z).
Proof.
  destruct (columns d !! "Close") as [c|] eqn:Hc.
  - destruct (decide (w < 0)%Z) as [Hw|Hw].
    { rewrite (calculate_rsi_bad_window d c) by done. split.
      - split; [by intros [? ?] | lia].
      - intros e d' [= <- <-]. split; [done|]. by right. }
    rewrite (calculate_rsi_run d c) by (done || lia). split.
    + split; [intros _; split; [by eexists | lia] | by eexists].
    + by intros e d'.
  - rewrite calculate_rsi_no_close by done. split.
    + split; [by intros [? ?] | by intros [[? ?] _]].
    + intros e d' [= <- <-]. split; [done|]. by left.
Qed.

Lemma rsi_failure_is_atomic_witness :
  final_frame (calculate_rsi (-3) (price_frame [1; 2; 4]%Z))
  = price_frame [1; 2; 4]%Z.
Proof.
  destruct (rsi_failure_is_atomic (price_frame [1; 2; 4]%Z) (-3)) as [_ Hfail].
  destruct (Hfail (ValueError "window must be an integer 0 or greater")
              (final_frame (calculate_rsi (-3) (price_frame [1; 2; 4]%Z))))
    as [Hd _]; [reflexivity | exact Hd].
Defined.

(** [calculate_macd] returns exactly when the frame has a [Close] column
    and the three spans are at least 1.  When it raises, the frame is
    untouched, except that a bad signal span is only detected after the
    MACD column has been written; Signal_Line is never written by a failing
    call. *)
Theorem macd_failure_modes (d : frame) (sw lw gw : Z) :
  ((∃ d', calculate_macd sw lw gw d = Ok tt d') ↔
   is_Some (columns d !! "Close") ∧ (1 ≤ sw)%Z ∧ (1 ≤ lw)%Z ∧ (1 ≤ gw)%Z) ∧
  ∀ e d', calculate_macd sw lw gw d = Raise e d' →
    (e = KeyError "Close" ∧ columns d !! "Close" = None ∧ d' = d) ∨
    (exn_class e = "ValueError" ∧ ((sw < 1)%Z ∨ (lw < 1)%Z) ∧ d' = d) ∨
    (exn_class e = "ValueError" ∧ (1 ≤ sw)%Z ∧ (1 ≤ lw)%Z ∧ (gw < 1)%Z ∧
     ∃ c, columns d !! "Close" = Some c ∧
          d' = set_column "MACD" (Float64 (macd_column sw lw (as_float c))) d).
Proof.
  destruct (columns d !! "Close") as [c|] eqn:Hc.
  - destruct (decide (sw < 1)%Z) as [Hsw|Hsw].
    { rewrite (calculate_macd_bad_short d c) by done. split.
      - split; [by intros [? ?] | lia].
      - intros e d' [= <- <-]. right. left. split_and!; [done | by left | done]. }
    destruct (decide (lw < 1)%Z) as [Hlw|Hlw].
    { rewrite (calculate_macd_bad_long d c) by (done || lia). split.
      - split; [by intros [? ?] | lia].
      - intros e d' [= <- <-]. right. left. split_and!; [done | by right | done]. }
    destruct (decide (gw < 1)%Z) as [Hgw|Hgw].
    { rewrite (calculate_macd_bad_signal d c) by (done || lia). split.
      - split; [by intros [? ?] | lia].
      - intros e d' [= <- <-]. right. right.
        split_and!; [done | lia | lia | done |]. by exists c. }
    rewrite (calculate_macd_run d c) by (done || lia). split.
    + split; [intros _; split_and!; [by eexists | lia..] | by eexists].
    + by intros e d'.
  - rewrite calculate_macd_no_close by done. split.
    + split; [by intros [? ?] | by intros [[? ?] _]].
    + intros e d' [= <- <-]. by left.
Qed.

Lemma macd_failure_modes_witness :
  ∃ c, columns (price_frame [1; 2; 4]%Z) !! "Close" = Some c ∧
    final_frame (calculate_macd 12 26 0 (price_frame [1; 2; 4]%Z))
    = set_column "MACD" (Float64 (macd_column 12 26 (as_float c)))
        (price_frame [1; 2; 4]%Z).
Proof.
  destruct (macd_failure_modes (price_frame [1; 2; 4]%Z) 12 26 0)
    as [_ Hfail].
  destruct (Hfail (ValueError "span must satisfy: span >= 1")
              (final_frame (calculate_macd 12 26 0 (price_frame [1; 2; 4]%Z))))
    as [(He & _)|[(_ & [Hs|Hs] & _)|(_ & _ & _ & _ & c & Hc & Hd)]].
  - reflexivity.
  - discriminate He.
  - lia.
  - lia.
  - exists c. split; [exact Hc | exact Hd].
Defined.

(** ** Running a function again *)

Lemma calculate_moving_averages_ok_inv d sw lw d' :
  calculate_moving_averages sw lw d = Ok tt d' →
  ∃ c, columns d !! "Close" = Some c ∧ (0 ≤ sw)%Z ∧ (0 ≤ lw)%Z.
Proof.
  destruct (columns d !! "Close") as [c|] eqn:Hc.
  - destruct (decide (sw < 0)%Z).
    { by rewrite (calculate_moving_averages_bad_short d c). }
    destruct (decide (lw < 0)%Z).
    { by rewrite (calculate_moving_averages_bad_long d c) by (done || lia). }
    intros _. exists c. split_and!; [done | lia..].
  - by rewrite calculate_moving_averages_no_close.
Qed.

Lemma calculate_rsi_ok_inv d w d' :
  calculate_rsi w d = Ok tt d' →
  ∃ c, columns d !! "Close" = Some c ∧ (0 ≤ w)%Z.
Proof.
  destruct (columns d !! "Close") as [c|] eqn:Hc.
  - destruct (decide (w < 0)%Z).
    { by rewrite (calculate_rsi_bad_window d c). }
    intros _. exists c. split; [done | lia].
  - by rewrite calculate_rsi_no_close.
Qed.

Lemma calculate_macd_ok_inv d sw lw gw d' :
  calculate_macd sw lw gw d = Ok tt d' →
  ∃ c, columns d !! "Close" = Some c ∧ (1 ≤ sw)%Z ∧ (1 ≤ lw)%Z ∧ (1 ≤ gw)%Z.
Proof.
  destruct (columns d !! "Close") as [c|] eqn:Hc.
  - destruct (decide (sw < 1)%Z).
    { by rewrite (calculate_macd_bad_short d c). }
    destruct (decide (lw < 1)%Z).
    { by rewrite (calculate_macd_bad_long d c) by (done || lia). }
    destruct (decide (gw < 1)%Z).
    { by rewrite (calculate_macd_bad_signal d c) by (done || lia). }
    intros _. exists c. split_and!; [done | lia..].
  - by rewrite calculate_macd_no_close.
Qed.

(** Each indicator function reads only columns it does not write, so a
    second call changes nothing: calling it twice in a row has the same
    outcome (frame and exception) as calling it once, for every frame and
    all parameters. *)
Theorem stages_idempotent (d : frame) :
  (∀ sw lw, (calculate_moving_averages sw lw;;
             calculate_moving_averages sw lw) d
            = calculate_moving_averages sw lw d) ∧
  (∀ w, (calculate_rsi w;; calculate_rsi w) d = calculate_rsi w d) ∧
  (∀ sw lw gw, (calculate_macd sw lw gw;; calculate_macd sw lw gw) d
               = calculate_macd sw lw gw d) ∧
  (identify_signals;; identify_signals) d = identify_signals d.
Proof.
  split_and!.
  - intros sw lw. unfold mbind, M_bind.
    destruct (calculate_moving_averages sw lw d) as [[] d1|e d1] eqn:Hrun;
      [|done].
    destruct (calculate_moving_averages_ok_inv _ _ _ _ Hrun)
      as (c & Hc & Hsw & Hlw).
    rewrite (calculate_moving_averages_run d c) in Hrun by done.
    injection Hrun as <-.
    rewrite (calculate_moving_averages_run _ c);
      [|simpl; by rewrite !lookup_insert_ne|done..].
    f_equal. frame_eq.
  - intros w. unfold mbind, M_bind.
    destruct (calculate_rsi w d) as [[] d1|e d1] eqn:Hrun; [|done].
    destruct (calculate_rsi_ok_inv _ _ _ Hrun) as (c & Hc & Hw).
    rewrite (calculate_rsi_run d c) in Hrun by done.
    injection Hrun as <-.
    rewrite (calculate_rsi_run _ c);
      [|simpl; by rewrite !lookup_insert_ne|done].
    f_equal. frame_eq.
  - intros sw lw gw. unfold mbind, M_bind.
    destruct (calculate_macd sw lw gw d) as [[] d1|e d1] eqn:Hrun; [|done].
    destruct (calculate_macd_ok_inv _ _ _ _ _ Hrun)
      as (c & Hc & Hsw & Hlw & Hgw).
    rewrite (calculate_macd_run d c) in Hrun by done.
    injection Hrun as <-.
    rewrite (calculate_macd_run _ c);
      [|simpl; by rewrite !lookup_insert_ne|done..].
    f_equal. frame_eq.
  - unfold mbind, M_bind.
    destruct (columns d !! "Short_MA") as [s|] eqn:Hs.
    + destruct (columns d !! "Long_MA") as [l|] eqn:Hl.
      * rewrite (identify_signals_run d s l) by done.
        rewrite (identify_signals_run _ s l);
          [|simpl; by rewrite lookup_insert_ne..].
        f_equal. frame_eq.
      * by rewrite (identify_signals_no_long d s).
    + by rewrite identify_signals_no_short.
Qed.

(** ** The pipeline as a whole *)

Lemma analyze_no_close d :
  columns d !! "Close" = None → analyze d = Raise (KeyError "Close") d.
Proof.
  intros Hc. unfold analyze, mbind, M_bind.
  by rewrite calculate_moving_averages_no_close.
Qed.

(** The four calls of the Analyze branch, with their default parameters,
    succeed on every frame that has a [Close] column, however short, and
    fail before touching anything, with [KeyError] for [Close], on every
    frame that has none.  On success the index is unchanged, every column
    other than the six indicator columns is unchanged, exactly those six
    labels are added, and all columns have the length of the index if they
    had before. *)
Theorem analyze_outcome (d : frame) :
  (columns d !! "Close" = None → analyze d = Raise (KeyError "Close") d) ∧
  (is_Some (columns d !! "Close") →
   ∃ d', analyze d = Ok tt d' ∧
         frame_preserved analyze_labels d d' ∧
         (wf_frame d → wf_frame d')).
Proof.
  split; [apply analyze_no_close|].
  intros [c Hc]. eexists. split; [by apply (analyze_run d c)|].
  split.
  - repeat split; simpl.
    + intros k Hk. unfold analyze_labels, ma_labels, rsi_labels, macd_labels,
        signal_labels in Hk.
      rewrite !not_elem_of_union, !not_elem_of_singleton in Hk.
      destruct_and!. by rewrite !lookup_insert_ne.
    + rewrite !dom_insert_L. unfold analyze_labels, ma_labels, rsi_labels,
        macd_labels, signal_labels.
      apply set_eq. intros k. rewrite !elem_of_union, !elem_of_singleton.
      tauto.
  - intros Hwf. pose proof (Hwf _ _ Hc) as Hlen.
    rewrite <- as_float_length in Hlen.
    repeat apply set_column_wf; try done; simpl.
    + by rewrite roll_mean_length, prep_values_length.
    + by rewrite roll_mean_length, prep_values_length.
    + by rewrite rsi_column_length.
    + by rewrite macd_column_length.
    + by rewrite signal_line_column_length.
    + by rewrite signal_column_length.
Qed.

Lemma analyze_outcome_witness :
  ∃ d', analyze (price_frame [3; 5; 4]%Z) = Ok tt d' ∧
        frame_preserved analyze_labels (price_frame [3; 5; 4]%Z) d'.
Proof.
  destruct (analyze_outcome (price_frame [3; 5; 4]%Z)) as [_ Hok].
  destruct Hok as (d' & Hrun & Hpres & _); [by eexists|].
  by exists d'.
Defined.

(** Analysing a frame that has already been analysed changes nothing: the
    pipeline run twice has the same outcome as the pipeline run once. *)
Theorem analyze_idempotent (d : frame) :
  (analyze;; analyze) d = analyze d.
Proof.
  unfold mbind at 1. unfold M_bind at 1.
  destruct (columns d !! "Close") as [c|] eqn:Hc.
  - rewrite (analyze_run d c Hc).
    rewrite (analyze_run _ c); [|simpl; by rewrite !lookup_insert_ne].
    simpl. f_equal. frame_eq.
  - by rewrite analyze_no_close.
Qed.

(** ** Moving averages: missing data, rescaling *)

Lemma all_fin_values (l : list cell) :
  Forall (λ c, is_fin c = true) l → ∃ ys, l = Fin <$> ys.
Proof.
  induction 1 as [|v l Hv _ [ys ->]]; [by exists []|].
  destruct v as [| | |x]; try done. by exists (x :: ys).
Qed.

Lemma fin_values_all_fin (ys : list Qc) :
  Forall (λ c, is_fin c = true) (Fin <$> ys).
Proof. apply Forall_fmap, Forall_true. done. Qed.

Lemma Qc_of_nat_S n :
  Qc_of_Z (Z.of_nat (S n)) = (Qc_of_Z (Z.of_nat n) + 1)%Qc.
Proof. by rewrite Nat2Z.inj_succ, <- Z.add_1_r, Z2Qc_inj_add, Z2Qc_inj_1. Qed.

Lemma Qc_of_nat_nonzero n : 0 < n → Qc_of_Z (Z.of_nat n) ≠ 0%Qc.
Proof.
  intros Hn Heq. assert (0 < Qc_of_Z (Z.of_nat n))%Qc as Hpos.
  { apply Qc_of_Z_pos. lia. }
  rewrite Heq in Hpos. by apply Qclt_irrefl_0.
Qed.

Lemma Qcsum_affine k c l :
  Qcsum (affine k c <$> l)
  = (k * Qcsum l + c * Qc_of_Z (Z.of_nat (length l)))%Qc.
Proof.
  induction l as [|x l IH].
  { change (Qcsum (affine k c <$> [])) with 0%Qc.
    change (Z.of_nat (length (@nil Qc))) with 0%Z.
    rewrite Z2Qc_inj_0. change (Qcsum []) with 0%Qc. ring. }
  rewrite fmap_cons. cbn [Qcsum foldr length].
  fold (Qcsum (affine k c <$> l)). fold (Qcsum l).
  rewrite IH, Qc_of_nat_S. unfold affine. ring.
Qed.

Lemma mean_affine k c l :
  0 < length l → mean (affine k c <$> l) = affine k c (mean l).
Proof.
  intros Hl. unfold mean. rewrite Qcsum_affine, length_fmap.
  pose proof (Qc_of_nat_nonzero _ Hl) as Hn.
  unfold affine. field. done.
Qed.

Lemma roll_mean_affine k c (w : nat) xs :
  1 ≤ w →
  roll_mean w (prep_values (Fin <$> (affine k c <$> xs)))
  = cell_affine k c <$> roll_mean w (prep_values (Fin <$> xs)).
Proof.
  intros Hw. apply list_eq. intros i.
  rewrite list_lookup_fmap.
  destruct (decide (i < length xs)) as [Hi|Hi].
  - rewrite !prep_values_Fin.
    rewrite !roll_mean_lookup by (rewrite ?length_fmap; lia).
    simpl. f_equal. rewrite !window_fmap.
    unfold calc_mean, stats. simpl.
    rewrite !sum_obs_Some, !count_obs_Some, !length_fmap.
    pose proof (window_length w i xs Hi) as Hlen.
    case_decide as Hfull; [|done]. simpl. f_equal.
    pose proof (mean_affine k c (window w i xs)) as Hm.
    unfold mean in Hm. rewrite length_fmap in Hm. apply Hm. lia.
  - rewrite !lookup_ge_None_2; [done|..];
      rewrite roll_mean_length, prep_values_length, ?length_fmap; lia.
Qed.


Lemma with_close_lookup close d :
  columns (with_close close d) !! "Close" = Some (Float64 close).
Proof. unfold with_close. simpl. by rewrite lookup_insert_eq. Qed.



(** ** Rescaled prices *)




(** Replacing every close [x] of a numeric series by [k * x + c] turns each
    defined moving average [m] into [k * m + c] and leaves the undefined
    entries undefined.  (With [k = 0]: the averages of a constant series
    are that constant.) *)
Theorem moving_averages_affine (d : frame) (col : column) (xs : list Qc)
    (k c : Qc) (sw lw : Z) :
  (1 ≤ sw)%Z → (1 ≤ lw)%Z →
  columns d !! "Close" = Some col → as_float col = Fin <$> xs →
  ∀ label, label = "Short_MA" ∨ label = "Long_MA" →
    float_column label
      (final_frame (calculate_moving_averages sw lw
                      (with_close (rescaled k c xs) d)))
    = fmap (M := list) (cell_affine k c) <$>
        float_column label
          (final_frame (calculate_moving_averages sw lw d)).
Proof.
  intros Hsw Hlw Hcol Hxs label Hlabel.
  rewrite (calculate_moving_averages_run d col) by (done || lia).
  rewrite (calculate_moving_averages_run _ _ _ _ (with_close_lookup _ d))
    by lia.
  unfold float_column, rescaled. simpl. rewrite Hxs.
  destruct Hlabel as [-> | ->].
  - rewrite !(lookup_insert_ne _ "Long_MA") by done.
    rewrite !lookup_insert_eq. simpl. f_equal.
    apply roll_mean_affine. lia.
  - rewrite !lookup_insert_eq. simpl. f_equal.
    apply roll_mean_affine. lia.
Qed.

Lemma moving_averages_affine_witness :
  float_column "Short_MA"
    (final_frame (calculate_moving_averages 2 3
       (with_close (rescaled (Qc_of_Z 2) (Qc_of_Z 5)
                                (Qc_of_Z <$> [1; 2; 4]%Z))
          (price_frame [1; 2; 4]%Z))))
  = fmap (M := list) (cell_affine (Qc_of_Z 2) (Qc_of_Z 5)) <$>
      float_column "Short_MA"
        (final_frame (calculate_moving_averages 2 3 (price_frame [1; 2; 4]%Z))).
Proof.
  apply (moving_averages_affine (price_frame [1; 2; 4]%Z)
           (Float64 (qz <$> [1; 2; 4]%Z)) (Qc_of_Z <$> [1; 2; 4]%Z));
    [lia | lia | reflexivity | reflexivity | by left].
Defined.



(** ** RSI: closed form, undefined prefix, mirrored prices *)

Lemma Qc_nonneg_sum_zero g l :
  (0 ≤ g)%Qc → (0 ≤ l)%Qc → (g + l = 0)%Qc → g = 0%Qc ∧ l = 0%Qc.
Proof.
  intros Hg Hl Hsum.
  assert (g = 0%Qc) as ->.
  { apply Qcle_antisym; [|done]. rewrite <- Hsum.
    rewrite <- (Qcplus_0_r g) at 1. by apply Qcplus_le_mono_l. }
  split; [done|]. by rewrite Qcplus_0_l in Hsum.
Qed.

Lemma Qc_pos_nonzero x : (0 < x)%Qc → x ≠ 0%Qc.
Proof. intros Hx ->. by apply Qclt_irrefl_0. Qed.

Lemma Qc_nonneg_pos x : (0 ≤ x)%Qc → x ≠ 0%Qc → (0 < x)%Qc.
Proof.
  intros Hx Hne. destruct (Qcle_lt_or_eq _ _ Hx) as [|Heq]; [done|].
  by destruct Hne.
Qed.

Lemma rsi_of_ratio g l :
  (0 ≤ g)%Qc → (0 ≤ l)%Qc →
  rsi_of (cell_div (Fin g) (Fin l)) = rsi_ratio g l.
Proof.
  intros Hg Hl. unfold rsi_ratio.
  destruct (decide (l = 0%Qc)) as [->|Hl0].
  - destruct (decide (g = 0%Qc)) as [->|Hg0].
    + rewrite cell_div_zero_zero, decide_True; [done | ring].
    + rewrite rsi_of_saturated by (by apply Qc_nonneg_pos).
      rewrite decide_False.
      2:{ by rewrite Qcplus_0_r. }
      unfold c100. f_equal. field. done.
  - assert (0 < l)%Qc as Hlpos by (by apply Qc_nonneg_pos).
    assert (0 < g + l)%Qc as Hpos by (by apply Qcplus_nonneg_pos).
    pose proof (Qc_pos_nonzero _ Hpos) as Hsum.
    rewrite cell_div_fin by done.
    rewrite rsi_of_fin.
    2:{ unfold Qcdiv. apply Qcmult_nonneg_nonneg; [done|].
        by apply Qclt_le_weak, Qcinv_pos. }
    rewrite decide_False by done. f_equal. field. by split.
Qed.

Lemma diff_numeric xs j d :
  diff (Fin <$> xs) !! j = Some d → d = NaN ∨ ∃ x, d = Fin x.
Proof.
  intros [[_ ->]|(j' & a & b & _ & Ha & Hb & ->)]%diff_lookup_inv; [by left|].
  rewrite list_lookup_fmap in Ha, Hb.
  apply fmap_Some in Ha as (xa & _ & ->).
  apply fmap_Some in Hb as (xb & _ & ->).
  right. by eexists.
Qed.

Lemma gain1_numeric d : (d = NaN ∨ ∃ x, d = Fin x) → is_fin (gain1 d) = true.
Proof.
  intros [->|[x ->]]; [done|]. unfold gain1. by destruct (cell_gt _ _).
Qed.

Lemma loss1_numeric d : (d = NaN ∨ ∃ x, d = Fin x) → is_fin (loss1 d) = true.
Proof.
  intros [->|[x ->]]; [done|]. unfold loss1. by destruct (cell_lt _ _).
Qed.

Lemma raw_numeric (f : cell → cell) xs :
  (∀ d, (d = NaN ∨ ∃ x, d = Fin x) → is_fin (f d) = true) →
  Forall (λ c, is_fin c = true) (f <$> diff (Fin <$> xs)).
Proof.
  intros Hf. apply Forall_lookup. intros j v Hv.
  rewrite list_lookup_fmap in Hv. apply fmap_Some in Hv as (d & Hd & ->).
  by apply Hf, (diff_numeric xs j).
Qed.

Lemma roll_mean_numeric (w : Z) s i :
  (1 ≤ w)%Z → (w - 1 ≤ Z.of_nat i)%Z → i < length s →
  Forall (λ c, is_fin c = true) s →
  ∃ m, roll_mean (Z.to_nat w) (prep_values s) !! i = Some (Fin m).
Proof.
  intros Hw Hi Hn Hs.
  destruct (roll_mean_cases w s i Hw Hn) as (_ & Hval & _).
  destruct (all_fin_values (window (Z.to_nat w) i s)) as [ys Hys].
  { apply window_Forall. intros j x _ Hx.
    exact (Forall_lookup_1 _ _ _ _ Hs Hx). }
  destruct (Hval ys) as [_ Hm]; [done..|]. by eexists.
Qed.

Lemma roll_mean_prefix (w : Z) s i :
  (1 ≤ w)%Z → (Z.of_nat i < w - 1)%Z → i < length s →
  roll_mean (Z.to_nat w) (prep_values s) !! i = Some NaN.
Proof.
  intros Hw Hi Hn.
  destruct (roll_mean_cases w s i Hw Hn) as (Hpre & _). by apply Hpre.
Qed.

(** RSI in closed form.  For a window [w >= 1] the first [w - 1] entries of
    the RSI column are undefined (not [w]: the undefined first price change
    counts as no gain and no loss).  Wherever the two averages are numbers
    [g] and [l] they are non-negative and the entry is
    [100 * g / (g + l)], undefined exactly when both are zero; on a series
    of numbers that is the case at every index from [w - 1] on. *)
Theorem rsi_closed_form (d : frame) (c : column) (w : Z) :
  columns d !! "Close" = Some c → (1 ≤ w)%Z →
  ∃ rsi,
    calculate_rsi w d = Ok tt (set_column "RSI" (Float64 rsi) d) ∧
    (∀ i, i < length (as_float c) → (Z.of_nat i < w - 1)%Z →
       rsi !! i = Some NaN) ∧
    (∀ i g l, avg_gain w (as_float c) !! i = Some (Fin g) →
       avg_loss w (as_float c) !! i = Some (Fin l) →
       (0 ≤ g)%Qc ∧ (0 ≤ l)%Qc ∧
       rsi !! i = Some (if decide (g + l = 0)%Qc then NaN
                        else Fin (Qc_of_Z 100 * g / (g + l))%Qc)) ∧
    (∀ xs i, as_float c = Fin <$> xs →
       (w - 1 ≤ Z.of_nat i)%Z → i < length xs →
       ∃ g l, avg_gain w (as_float c) !! i = Some (Fin g) ∧
              avg_loss w (as_float c) !! i = Some (Fin l)).
Proof.
  intros Hc Hw. exists (rsi_column w (as_float c)).
  split; [apply (calculate_rsi_run d c); [done | lia]|].
  split_and!.
  - intros i Hi Hpre.
    assert (avg_gain w (as_float c) !! i = Some NaN) as Hg.
    { apply roll_mean_prefix; [done..|]. by rewrite rsi_gain_raw_length. }
    destruct (lookup_lt_is_Some_2 (avg_loss w (as_float c)) i) as [l Hl].
    { unfold avg_loss.
      by rewrite roll_mean_length, prep_values_length, rsi_loss_raw_length. }
    by rewrite (rsi_column_lookup _ _ _ _ _ Hg Hl).
  - intros i g l Hg Hl.
    assert (0 ≤ g)%Qc as Hg0.
    { destruct (roll_mean_nonneg _ _ _ _ (gain_obs_nonneg (as_float c)) Hg)
        as [|(x & [= <-] & ?)]; done. }
    assert (0 ≤ l)%Qc as Hl0.
    { destruct (roll_mean_nonneg _ _ _ _ (loss_obs_nonneg (as_float c)) Hl)
        as [|(x & [= <-] & ?)]; done. }
    split_and!; [done..|].
    rewrite (rsi_column_lookup _ _ _ _ _ Hg Hl). f_equal.
    by apply rsi_of_ratio.
  - intros xs i Hxs Hi Hn. rewrite Hxs.
    destruct (roll_mean_numeric w (rsi_gain_raw (Fin <$> xs)) i) as [g Hg];
      [done.. | by rewrite rsi_gain_raw_length, length_fmap | |].
    { rewrite rsi_gain_raw_eq. apply raw_numeric, gain1_numeric. }
    destruct (roll_mean_numeric w (rsi_loss_raw (Fin <$> xs)) i) as [l Hl];
      [done.. | by rewrite rsi_loss_raw_length, length_fmap | |].
    { rewrite rsi_loss_raw_eq. apply raw_numeric, loss1_numeric. }
    by exists g, l.
Qed.

Lemma rsi_closed_form_witness :
  ∃ rsi,
    calculate_rsi 3 (price_frame [10; 11; 12; 11]%Z)
    = Ok tt (set_column "RSI" (Float64 rsi) (price_frame [10; 11; 12; 11]%Z)) ∧
    rsi !! 0 = Some NaN ∧ rsi !! 1 = Some NaN.
Proof.
  destruct (rsi_closed_form (price_frame [10; 11; 12; 11]%Z)
              (Float64 (qz <$> [10; 11; 12; 11]%Z)) 3)
    as (rsi & Hrun & Hpre & _); [reflexivity | lia |].
  exists rsi. split; [exact Hrun|].
  split; apply Hpre; simpl; lia.
Defined.

Lemma cell_neg_add a b :
  cell_neg (cell_add a b) = cell_add (cell_neg a) (cell_neg b).
Proof. destruct a, b; simpl; try done. f_equal. ring. Qed.

Lemma zip_with_sub_neg l1 : ∀ l2,
  zip_with cell_sub (cell_neg <$> l1) (cell_neg <$> l2)
  = cell_neg <$> zip_with cell_sub l1 l2.
Proof.
  induction l1 as [|a l1 IH]; intros [|b l2]; try done.
  rewrite !fmap_cons. cbn [zip_with]. rewrite fmap_cons, IH. f_equal.
  unfold cell_sub. by rewrite cell_neg_add.
Qed.

Lemma diff_neg s : diff (cell_neg <$> s) = cell_neg <$> diff s.
Proof.
  destruct s as [|h tl]; [done|].
  rewrite fmap_cons. cbn [diff]. rewrite fmap_cons. f_equal.
  rewrite <- fmap_cons. apply zip_with_sub_neg.
Qed.

Lemma Qcopp_lt_flip p q : (p < q)%Qc → (- q < - p)%Qc.
Proof.
  intros H. apply (proj1 (Qclt_minus_iff p q)) in H.
  apply (proj2 (Qclt_minus_iff (- q) (- p))).
  by rewrite Qcopp_involutive, Qcplus_comm.
Qed.

Lemma gain1_neg d : gain1 (cell_neg d) = loss1 d.
Proof.
  unfold gain1, loss1, cell_gt, c0.
  destruct d as [| | |x]; simpl; try done; try by rewrite Qcopp_0.
  destruct (decide (x < 0)%Qc) as [Hx|Hx].
  - rewrite !bool_decide_eq_true_2; [done | done |].
    apply Qcopp_lt_flip in Hx. by rewrite Qcopp_0 in Hx.
  - rewrite !bool_decide_eq_false_2; [simpl; by rewrite Qcopp_0 | done |].
    intros Hneg. apply Hx. apply Qcopp_lt_flip in Hneg.
    by rewrite Qcopp_0, Qcopp_involutive in Hneg.
Qed.

Lemma loss1_neg d : loss1 (cell_neg d) = gain1 d.
Proof.
  unfold gain1, loss1, cell_gt, c0.
  destruct d as [| | |x]; simpl; try done; try by rewrite Qcopp_0.
  destruct (decide (0 < x)%Qc) as [Hx|Hx].
  - rewrite !bool_decide_eq_true_2; [simpl; by rewrite Qcopp_involutive | done |].
    apply Qcopp_lt_flip in Hx. by rewrite Qcopp_0 in Hx.
  - rewrite !bool_decide_eq_false_2; [simpl; by rewrite Qcopp_0 | done |].
    intros Hneg. apply Hx. apply Qcopp_lt_flip in Hneg.
    by rewrite Qcopp_0, Qcopp_involutive in Hneg.
Qed.

Lemma rsi_gain_raw_neg s : rsi_gain_raw (cell_neg <$> s) = rsi_loss_raw s.
Proof.
  rewrite rsi_gain_raw_eq, rsi_loss_raw_eq, diff_neg, <- list_fmap_compose.
  apply list_fmap_ext. intros _ d _. apply gain1_neg.
Qed.

Lemma rsi_loss_raw_neg s : rsi_loss_raw (cell_neg <$> s) = rsi_gain_raw s.
Proof.
  rewrite rsi_gain_raw_eq, rsi_loss_raw_eq, diff_neg, <- list_fmap_compose.
  apply list_fmap_ext. intros _ d _. apply loss1_neg.
Qed.

Lemma rsi_of_swap g l :
  nonneg_cell g → nonneg_cell l →
  rsi_of (cell_div l g) = cell_sub c100 (rsi_of (cell_div g l)).
Proof.
  intros [->|(x & -> & Hx)] [->|(y & -> & Hy)]; try done.
  rewrite !rsi_of_ratio by done. unfold rsi_ratio.
  rewrite (Qcplus_comm y x).
  case_decide as Hsum; [done|].
  unfold cell_sub, c100. simpl. f_equal. field. done.
Qed.

Lemma rsi_column_neg w s :
  rsi_column w (cell_neg <$> s) = cell_sub c100 <$> rsi_column w s.
Proof.
  unfold rsi_column, avg_gain, avg_loss.
  rewrite rsi_gain_raw_neg, rsi_loss_raw_neg.
  fold (avg_gain w s). fold (avg_loss w s).
  apply list_eq. intros i. rewrite !list_lookup_fmap, !lookup_zip_with.
  destruct (avg_gain w s !! i) as [g|] eqn:Hg,
           (avg_loss w s !! i) as [l|] eqn:Hl; simpl; try done.
  f_equal. apply rsi_of_swap.
  - eapply roll_mean_nonneg; [apply gain_obs_nonneg | done].
  - eapply roll_mean_nonneg; [apply loss_obs_nonneg | done].
Qed.

(** RSI of the mirrored prices.  Negating every close swaps gains and
    losses, and the RSI column of the mirrored series is [100 - rsi] entry
    by entry (undefined where [rsi] is), for every close series and every
    window [>= 0]. *)
Theorem rsi_mirror (d : frame) (c : column) (w : Z) :
  columns d !! "Close" = Some c → (0 ≤ w)%Z →
  float_column "RSI"
    (final_frame (calculate_rsi w (with_close (cell_neg <$> as_float c) d)))
  = fmap (M := list) (cell_sub c100) <$>
      float_column "RSI" (final_frame (calculate_rsi w d)).
Proof.
  intros Hc Hw.
  rewrite (calculate_rsi_run d c) by done.
  rewrite (calculate_rsi_run _ _ _ (with_close_lookup _ d)) by done.
  unfold float_column. simpl. rewrite !lookup_insert_eq. simpl.
  f_equal. apply rsi_column_neg.
Qed.

Lemma rsi_mirror_witness :
  float_column "RSI"
    (final_frame (calculate_rsi 2
       (with_close (cell_neg <$> as_float (Float64 (qz <$> [10; 11; 9; 12]%Z)))
          (price_frame [10; 11; 9; 12]%Z))))
  = fmap (M := list) (cell_sub c100) <$>
      float_column "RSI"
        (final_frame (calculate_rsi 2 (price_frame [10; 11; 9; 12]%Z))).
Proof.
  apply (rsi_mirror (price_frame [10; 11; 9; 12]%Z)
           (Float64 (qz <$> [10; 11; 9; 12]%Z)) 2); [reflexivity | lia].
Defined.

Lemma decreasing_neg xs : decreasing xs → increasing (Qcopp <$> xs).
Proof.
  intros Hdec i a b Ha Hb. rewrite list_lookup_fmap in Ha, Hb.
  apply fmap_Some in Ha as (a' & Ha & ->).
  apply fmap_Some in Hb as (b' & Hb & ->).
  apply Qcopp_lt_flip. by apply (Hdec i).
Qed.

(** On a strictly decreasing close series with window [w >= 1] the average
    gain is zero and the average loss positive at every index [i >= w], and
    the RSI there is exactly 0. *)
Theorem rsi_zero_on_decreasing (d : frame) (c : column) (w : Z)
    (xs : list Qc) :
  columns d !! "Close" = Some c → as_float c = Fin <$> xs →
  decreasing xs → (1 ≤ w)%Z →
  ∃ rsi,
    calculate_rsi w d = Ok tt (set_column "RSI" (Float64 rsi) d) ∧
    ∀ i, (w ≤ Z.of_nat i)%Z → i < length xs →
      avg_gain w (as_float c) !! i = Some (Fin 0%Qc) ∧
      (∃ p, avg_loss w (as_float c) !! i = Some (Fin p) ∧ (0 < p)%Qc) ∧
      rsi !! i = Some (Fin 0%Qc).
Proof.
  intros Hc Hxs Hdec Hw. exists (rsi_column w (as_float c)).
  split; [apply (calculate_rsi_run d c); [done | lia]|].
  intros i Hi Hn. rewrite Hxs.
  pose proof (decreasing_neg xs Hdec) as Hinc.
  assert (Hneg : cell_neg <$> (Fin <$> xs) = Fin <$> (Qcopp <$> xs)).
  { by rewrite <- !list_fmap_compose. }
  assert (Hg : avg_gain w (Fin <$> xs) !! i = Some (Fin 0%Qc)).
  { unfold avg_gain. rewrite <- rsi_loss_raw_neg, Hneg.
    apply (avg_loss_increasing w (Qcopp <$> xs) i);
      [done..|by rewrite length_fmap]. }
  assert (Hl : ∃ p, avg_loss w (Fin <$> xs) !! i = Some (Fin p) ∧ (0 < p)%Qc).
  { unfold avg_loss. rewrite <- rsi_gain_raw_neg, Hneg.
    apply (avg_gain_increasing w (Qcopp <$> xs) i);
      [done..|by rewrite length_fmap]. }
  split_and!; [done..|].
  destruct Hl as (p & Hl & Hp).
  rewrite (rsi_column_lookup _ _ _ _ _ Hg Hl).
  rewrite rsi_of_ratio; [|done|by apply Qclt_le_weak].
  unfold rsi_ratio. rewrite Qcplus_0_l.
  rewrite decide_False by (by apply Qc_pos_nonzero).
  do 2 f_equal. unfold Qcdiv. ring.
Qed.

Lemma decreasing_example : decreasing (Qc_of_Z <$> [9; 6; 4; 1]%Z).
Proof.
  intros i a b Ha Hb.
  destruct i as [|[|[|[|i]]]]; simpl in Ha, Hb; simplify_eq;
    by apply (proj1 (Z2Qc_inj_lt _ _)).
Qed.

Lemma rsi_zero_on_decreasing_witness :
  ∃ rsi,
    calculate_rsi 2 (price_frame [9; 6; 4; 1]%Z)
    = Ok tt (set_column "RSI" (Float64 rsi) (price_frame [9; 6; 4; 1]%Z)) ∧
    rsi !! 2 = Some (Fin 0%Qc) ∧ rsi !! 3 = Some (Fin 0%Qc).
Proof.
  destruct (rsi_zero_on_decreasing (price_frame [9; 6; 4; 1]%Z)
              (Float64 (qz <$> [9; 6; 4; 1]%Z)) 2 (Qc_of_Z <$> [9; 6; 4; 1]%Z))
    as (rsi & Hrun & Hzero);
    [reflexivity | reflexivity | apply decreasing_example | lia |].
  exists rsi. split; [exact Hrun|]. split.
  - apply (Hzero 2); simpl; lia.
  - apply (Hzero 3); simpl; lia.
Defined.

(** ** RSI of rescaled prices *)

Lemma affine_0 k : affine k 0 0 = 0%Qc.
Proof. unfold affine. ring. Qed.

Lemma affine_pos k x : (0 < k)%Qc → (0 < affine k 0 x)%Qc ↔ (0 < x)%Qc.
Proof.
  intros Hk. unfold affine. rewrite Qcplus_0_r.
  rewrite (Qcmult_lt_mono_pos_l 0 x k Hk). by rewrite Qcmult_0_r.
Qed.

Lemma affine_neg k x : (0 < k)%Qc → (affine k 0 x < 0)%Qc ↔ (x < 0)%Qc.
Proof.
  intros Hk. unfold affine. rewrite Qcplus_0_r.
  rewrite (Qcmult_lt_mono_pos_l x 0 k Hk). by rewrite Qcmult_0_r.
Qed.

Lemma zip_with_sub_rescaled k c l1 : ∀ l2,
  zip_with cell_sub (rescaled k c l1) (rescaled k c l2)
  = cell_affine k 0 <$> zip_with cell_sub (Fin <$> l1) (Fin <$> l2).
Proof.
  unfold rescaled.
  induction l1 as [|a l1 IH]; intros [|b l2]; try done.
  rewrite !fmap_cons. cbn [zip_with]. rewrite fmap_cons, IH. f_equal.
  unfold cell_sub. simpl. f_equal. unfold affine. ring.
Qed.

Lemma diff_rescaled k c xs :
  diff (rescaled k c xs) = cell_affine k 0 <$> diff (Fin <$> xs).
Proof.
  destruct xs as [|h tl]; [done|].
  change (rescaled k c (h :: tl)) with (Fin (affine k c h) :: rescaled k c tl).
  rewrite fmap_cons. cbn [diff]. rewrite fmap_cons. f_equal.
  apply (zip_with_sub_rescaled k c tl (h :: tl)).
Qed.

Lemma gain1_scale k d :
  (0 < k)%Qc → gain1 (cell_affine k 0 d) = cell_affine k 0 (gain1 d).
Proof.
  intros Hk. unfold gain1, cell_gt, c0.
  destruct d as [| | |x]; simpl; try done; try by rewrite affine_0.
  rewrite (bool_decide_ext _ _ (affine_pos k x Hk)).
  case_bool_decide; simpl; [done | by rewrite affine_0].
Qed.

Lemma loss1_scale k d :
  (0 < k)%Qc → loss1 (cell_affine k 0 d) = cell_affine k 0 (loss1 d).
Proof.
  intros Hk. unfold loss1, c0.
  assert (Hz : Fin (- 0)%Qc = Fin (affine k 0 (- 0))).
  { f_equal. unfold affine. ring. }
  destruct d as [| | |x]; simpl; try done.
  rewrite (bool_decide_ext _ _ (affine_neg k x Hk)).
  case_bool_decide; simpl; [|done].
  f_equal. unfold affine. ring.
Qed.

Lemma raw_rescaled (f : cell → cell) k c xs :
  (∀ d, f (cell_affine k 0 d) = cell_affine k 0 (f d)) →
  (∀ d, (d = NaN ∨ ∃ x, d = Fin x) → is_fin (f d) = true) →
  ∃ gs, f <$> diff (Fin <$> xs) = Fin <$> gs ∧
        f <$> diff (rescaled k c xs) = Fin <$> (affine k 0 <$> gs).
Proof.
  intros Hscale Hnum.
  destruct (all_fin_values _ (raw_numeric f xs Hnum)) as [gs Hgs].
  exists gs. split; [done|].
  rewrite diff_rescaled, <- list_fmap_compose.
  rewrite (list_fmap_ext (f ∘ cell_affine k 0) (cell_affine k 0 ∘ f)
             (diff (Fin <$> xs)) (λ _ d _, Hscale d)).
  rewrite list_fmap_compose, Hgs. by rewrite <- !list_fmap_compose.
Qed.

Lemma rsi_of_scale k g l :
  (0 < k)%Qc → nonneg_cell g → nonneg_cell l →
  rsi_of (cell_div (cell_affine k 0 g) (cell_affine k 0 l))
  = rsi_of (cell_div g l).
Proof.
  intros Hk [->|(x & -> & Hx)] [->|(y & -> & Hy)]; try done.
  pose proof (Qc_pos_nonzero _ Hk) as Hk0.
  cbn [cell_affine]. rewrite !rsi_of_ratio; try done.
  2,3: unfold affine; rewrite Qcplus_0_r;
       apply Qcmult_nonneg_nonneg; [by apply Qclt_le_weak | done].
  unfold rsi_ratio, affine.
  destruct (decide (x + y = 0)%Qc) as [Hsum|Hsum].
  - rewrite decide_True; [done|].
    replace (k * x + 0 + (k * y + 0))%Qc with (k * (x + y))%Qc by ring.
    rewrite Hsum. ring.
  - rewrite decide_False.
    + f_equal. field. split; [done|].
      replace (k * x + k * y)%Qc with (k * (x + y))%Qc by ring.
      intros [?|?]%Qcmult_integral; done.
    + replace (k * x + 0 + (k * y + 0))%Qc with (k * (x + y))%Qc by ring.
      intros [?|?]%Qcmult_integral; done.
Qed.

Lemma rsi_column_rescaled k c (w : Z) xs :
  (0 < k)%Qc → (1 ≤ w)%Z →
  rsi_column w (rescaled k c xs) = rsi_column w (Fin <$> xs).
Proof.
  intros Hk Hw. unfold rsi_column, avg_gain, avg_loss.
  rewrite !rsi_gain_raw_eq, !rsi_loss_raw_eq.
  destruct (raw_rescaled gain1 k c xs) as (gs & Hg & Hg');
    [intros; by apply gain1_scale | apply gain1_numeric |].
  destruct (raw_rescaled loss1 k c xs) as (ls & Hl & Hl');
    [intros; by apply loss1_scale | apply loss1_numeric |].
  rewrite Hg, Hg', Hl, Hl'.
  rewrite !(roll_mean_affine k 0) by lia.
  rewrite zip_with_fmap_l, zip_with_fmap_r.
  apply list_eq. intros i. rewrite !list_lookup_fmap, !lookup_zip_with.
  destruct (roll_mean (Z.to_nat w) (prep_values (Fin <$> gs)) !! i)
    as [g|] eqn:Hgi; [|done].
  destruct (roll_mean (Z.to_nat w) (prep_values (Fin <$> ls)) !! i)
    as [l|] eqn:Hli; [|done].
  simpl. f_equal. apply rsi_of_scale; [done|..].
  - eapply roll_mean_nonneg; [|exact Hgi].
    rewrite <- Hg, <- rsi_gain_raw_eq. apply gain_obs_nonneg.
  - eapply roll_mean_nonneg; [|exact Hli].
    rewrite <- Hl, <- rsi_loss_raw_eq. apply loss_obs_nonneg.
Qed.

(** RSI does not depend on the unit or the origin of the prices:
    multiplying every close of a numeric series by a positive factor and
    adding a constant leaves the RSI column unchanged, for every window
    [>= 1]. *)
Theorem rsi_scale_shift_invariant (d : frame) (col : column) (xs : list Qc)
    (k c : Qc) (w : Z) :
  (0 < k)%Qc → (1 ≤ w)%Z →
  columns d !! "Close" = Some col → as_float col = Fin <$> xs →
  float_column "RSI"
    (final_frame (calculate_rsi w (with_close (rescaled k c xs) d)))
  = float_column "RSI" (final_frame (calculate_rsi w d)).
Proof.
  intros Hk Hw Hcol Hxs.
  rewrite (calculate_rsi_run d col) by (done || lia).
  rewrite (calculate_rsi_run _ _ _ (with_close_lookup _ d)) by lia.
  unfold float_column. simpl. rewrite !lookup_insert_eq. simpl.
  rewrite Hxs. f_equal. by apply rsi_column_rescaled.
Qed.

Lemma rsi_scale_shift_invariant_witness :
  float_column "RSI"
    (final_frame (calculate_rsi 2
       (with_close (rescaled (Qc_of_Z 3) (Qc_of_Z 7)
                      (Qc_of_Z <$> [10; 11; 9; 12]%Z))
          (price_frame [10; 11; 9; 12]%Z))))
  = float_column "RSI"
      (final_frame (calculate_rsi 2 (price_frame [10; 11; 9; 12]%Z))).
Proof.
  apply (rsi_scale_shift_invariant (price_frame [10; 11; 9; 12]%Z)
           (Float64 (qz <$> [10; 11; 9; 12]%Z))
           (Qc_of_Z <$> [10; 11; 9; 12]%Z) (Qc_of_Z 3) (Qc_of_Z 7) 2);
    [by apply Qc_of_Z_pos | lia | reflexivity | reflexivity].
Defined.

(** ** MACD of numeric, flat and rescaled prices *)

Lemma zip_with_sub_Fin l1 : ∀ l2,
  zip_with cell_sub (Fin <$> l1) (Fin <$> l2)
  = Fin <$> zip_with (λ a b, (a + - b)%Qc) l1 l2.
Proof.
  induction l1 as [|a l1 IH]; intros [|b l2]; try done.
  rewrite !fmap_cons. cbn [zip_with]. by rewrite fmap_cons, IH.
Qed.

Lemma macd_column_numeric sw lw xs :
  macd_column sw lw (Fin <$> xs) = Fin <$> macd_values sw lw xs.
Proof.
  unfold macd_column, macd_values.
  by rewrite prep_values_Fin, !ewm_finite, zip_with_sub_Fin.
Qed.

Lemma signal_line_column_numeric sw lw gw xs :
  signal_line_column sw lw gw (Fin <$> xs)
  = Fin <$> signal_line_values sw lw gw xs.
Proof.
  unfold signal_line_column, signal_line_values.
  by rewrite macd_column_numeric, prep_values_Fin, ewm_finite.
Qed.

Lemma ema_from_affine alpha k c xs : ∀ e,
  ema_from alpha (affine k c e) (affine k c <$> xs)
  = affine k c <$> ema_from alpha e xs.
Proof.
  induction xs as [|x xs IH]; intros e; [done|].
  rewrite fmap_cons. cbn [ema_from]. rewrite fmap_cons.
  replace (alpha * affine k c x + (1 - alpha) * affine k c e)%Qc
    with (affine k c (alpha * x + (1 - alpha) * e)%Qc)
    by (unfold affine; ring).
  by rewrite IH.
Qed.

Lemma ema_affine alpha k c xs :
  ema alpha (affine k c <$> xs) = affine k c <$> ema alpha xs.
Proof.
  destruct xs as [|x xs]; [done|].
  rewrite fmap_cons. cbn [ema]. by rewrite fmap_cons, ema_from_affine.
Qed.

Lemma zip_with_sub_affine k c l1 : ∀ l2,
  zip_with (λ a b, (a + - b)%Qc) (affine k c <$> l1) (affine k c <$> l2)
  = affine k 0 <$> zip_with (λ a b, (a + - b)%Qc) l1 l2.
Proof.
  induction l1 as [|a l1 IH]; intros [|b l2]; try done.
  rewrite !fmap_cons. cbn [zip_with]. rewrite fmap_cons, IH. f_equal.
  unfold affine. ring.
Qed.

Lemma macd_values_affine sw lw k c xs :
  macd_values sw lw (affine k c <$> xs) = affine k 0 <$> macd_values sw lw xs.
Proof. unfold macd_values. by rewrite !ema_affine, zip_with_sub_affine. Qed.

Lemma signal_line_values_affine sw lw gw k c xs :
  signal_line_values sw lw gw (affine k c <$> xs)
  = affine k 0 <$> signal_line_values sw lw gw xs.
Proof.
  unfold signal_line_values. by rewrite macd_values_affine, ema_affine.
Qed.

(** MACD depends only on price differences and is linear in them: replacing
    every close [x] of a numeric series by [k * x + c] multiplies every
    entry of the MACD and Signal_Line columns by [k] (the entries become
    [k * m + 0]); in particular adding a constant to all prices changes
    neither column. *)
Theorem macd_affine (d : frame) (col : column) (xs : list Qc) (k c : Qc)
    (sw lw gw : Z) :
  (1 ≤ sw)%Z → (1 ≤ lw)%Z → (1 ≤ gw)%Z →
  columns d !! "Close" = Some col → as_float col = Fin <$> xs →
  ∀ label, label = "MACD" ∨ label = "Signal_Line" →
    float_column label
      (final_frame (calculate_macd sw lw gw (with_close (rescaled k c xs) d)))
    = fmap (M := list) (cell_affine k 0) <$>
        float_column label (final_frame (calculate_macd sw lw gw d)).
Proof.
  intros Hsw Hlw Hgw Hcol Hxs label Hlabel.
  rewrite (calculate_macd_run d col) by done.
  rewrite (calculate_macd_run _ _ _ _ _ (with_close_lookup _ d)) by done.
  unfold float_column, rescaled. simpl. rewrite Hxs.
  destruct Hlabel as [-> | ->].
  - rewrite !(lookup_insert_ne _ "Signal_Line") by done.
    rewrite !lookup_insert_eq. simpl. f_equal.
    rewrite !macd_column_numeric, macd_values_affine.
    by rewrite <- !list_fmap_compose.
  - rewrite !lookup_insert_eq. simpl. f_equal.
    rewrite !signal_line_column_numeric, signal_line_values_affine.
    by rewrite <- !list_fmap_compose.
Qed.

Lemma macd_affine_witness :
  float_column "MACD"
    (final_frame (calculate_macd 12 26 9
       (with_close (rescaled (Qc_of_Z 2) (Qc_of_Z 5)
                      (Qc_of_Z <$> [10; 11; 9]%Z))
          (price_frame [10; 11; 9]%Z))))
  = fmap (M := list) (cell_affine (Qc_of_Z 2) 0) <$>
      float_column "MACD"
        (final_frame (calculate_macd 12 26 9 (price_frame [10; 11; 9]%Z))).
Proof.
  apply (macd_affine (price_frame [10; 11; 9]%Z)
           (Float64 (qz <$> [10; 11; 9]%Z)) (Qc_of_Z <$> [10; 11; 9]%Z)
           (Qc_of_Z 2) (Qc_of_Z 5) 12 26 9);
    [lia | lia | lia | reflexivity | reflexivity | by left].
Defined.

(** On flat prices (a constant numeric close series) the MACD and
    Signal_Line columns are 0 at every index, for all spans [>= 1]. *)
Theorem macd_zero_on_constant (d : frame) (col : column) (x : Qc) (n : nat)
    (sw lw gw : Z) :
  (1 ≤ sw)%Z → (1 ≤ lw)%Z → (1 ≤ gw)%Z →
  columns d !! "Close" = Some col → as_float col = replicate n (Fin x) →
  ∃ d',
    calculate_macd sw lw gw d = Ok tt d' ∧
    float_column "MACD" d' = Some (replicate n (Fin 0%Qc)) ∧
    float_column "Signal_Line" d' = Some (replicate n (Fin 0%Qc)).
Proof.
  intros Hsw Hlw Hgw Hcol Hx. eexists.
  split; [by apply (calculate_macd_run d col)|].
  assert (Hm : macd_values sw lw (replicate n x) = replicate n 0%Qc).
  { unfold macd_values. rewrite !ema_constant, zip_with_replicate.
    by rewrite Qcplus_opp_r. }
  unfold float_column. simpl. rewrite Hx, <- fmap_replicate. split.
  - rewrite lookup_insert_ne by done. rewrite lookup_insert_eq. simpl.
    by rewrite macd_column_numeric, Hm, fmap_replicate.
  - rewrite lookup_insert_eq. simpl.
    rewrite signal_line_column_numeric. unfold signal_line_values.
    by rewrite Hm, ema_constant, fmap_replicate.
Qed.

Lemma macd_zero_on_constant_witness :
  ∃ d',
    calculate_macd 12 26 9 (price_frame [7; 7; 7]%Z) = Ok tt d' ∧
    float_column "MACD" d' = Some (replicate 3 (Fin 0%Qc)) ∧
    float_column "Signal_Line" d' = Some (replicate 3 (Fin 0%Qc)).
Proof.
  apply (macd_zero_on_constant (price_frame [7; 7; 7]%Z)
           (Float64 (qz <$> [7; 7; 7]%Z)) (Qc_of_Z 7) 3 12 26 9);
    [lia | lia | lia | reflexivity | reflexivity].
Defined.

(** ** The recommendation *)







(** ** The Analyze button *)

Lemma frame_empty_false d :
  frame_empty d = false → 0 < length (index d).
Proof.
  unfold frame_empty. intros [Hi _]%orb_false_iff.
  apply bool_decide_eq_false in Hi. destruct (index d); [done | simpl; lia].
Qed.

Lemma analyze_last_signal_exists d c :
  columns d !! "Close" = Some c → 0 < length (index d) →
  is_Some (last_signal (final_frame (analyze d))).
Proof.
  intros Hc Hn. rewrite (analyze_run d c Hc). simpl.
  unfold last_signal, signal_values. simpl. rewrite lookup_insert_eq. simpl.
  rewrite last_lookup. apply lookup_lt_is_Some_2.
  rewrite signal_column_length. lia.
Qed.

(** What a click on Analyze leads to, case by case.  A failed download
    shows the fetch error and then "No data found"; an empty frame shows
    "No data found"; in both cases the pipeline is not run.  A non-empty
    frame without a [Close] column ends the run with the uncaught
    [KeyError] of the first indicator function, before anything is shown.
    A non-empty frame with a [Close] column always gets the table, the
    three charts and exactly one recommendation, read from the last
    signal: the emptiness check is what makes [.iloc[-1]] safe. *)
Theorem on_analyze_outcome
    (yf_download : string → Z → Z → download_result)
    (ticker : string) (start_date end_date : Z) :
  (∀ e, yf_download ticker start_date end_date = DownloadRaised e →
     on_analyze yf_download ticker start_date end_date
     = ([MsgFetching ticker; MsgFetchError e; MsgNoData], None)) ∧
  (∀ d, yf_download ticker start_date end_date = Downloaded d →
     (frame_empty d = true →
        on_analyze yf_download ticker start_date end_date
        = ([MsgFetching ticker; MsgNoData], None)) ∧
     (frame_empty d = false → columns d !! "Close" = None →
        on_analyze yf_download ticker start_date end_date
        = ([MsgFetching ticker], Some (Uncaught (KeyError "Close")))) ∧
     (frame_empty d = false → is_Some (columns d !! "Close") →
        ∃ d' s,
          analyze d = Ok tt d' ∧ last_signal d' = Some s ∧
          on_analyze yf_download ticker start_date end_date
          = ([MsgFetching ticker; MsgTable (tail_rows 10 d');
              MsgPriceChart; MsgRsiChart; MsgMacdChart;
              MsgRecommendation (recommend s)], None))) ∧
  snd (on_analyze yf_download ticker start_date end_date)
  ≠ Some UncaughtIndexError.
Proof.
  unfold on_analyze, fetch_stock_data.
  destruct (yf_download ticker start_date end_date) as [d|e] eqn:Hdl.
  2:{ split_and!; [by intros e' [= <-] | done | done]. }
  assert (Hok : frame_empty d = false → is_Some (columns d !! "Close") →
    ∃ d' s, analyze d = Ok tt d' ∧ last_signal d' = Some s).
  { intros Hne [c Hc].
    destruct (analyze_last_signal_exists d c Hc (frame_empty_false d Hne))
      as [s Hs].
    rewrite (analyze_run d c Hc) in Hs |- *. by eexists _, s. }
  split_and!; [done| |].
  - intros d0 [= <-]. split_and!.
    + by intros ->.
    + intros -> Hc. by rewrite (analyze_no_close d Hc).
    + intros Hne Hc. destruct (Hok Hne Hc) as (d' & s & Hrun & Hs).
      exists d', s. split_and!; [done..|].
      by rewrite Hne, Hrun, Hs.
  - destruct (frame_empty d) eqn:Hne; [done|].
    destruct (columns d !! "Close") as [c|] eqn:Hc.
    + destruct (Hok eq_refl) as (d' & s & Hrun & Hs); [by eexists|].
      by rewrite Hrun, Hs.
    + by rewrite (analyze_no_close d Hc).
Qed.

Lemma on_analyze_outcome_witness :
  on_analyze yf_example "XXXX" 0 1
  = ([MsgFetching "XXXX"; MsgFetchError "no such ticker"; MsgNoData], None) ∧
  ∃ d', on_analyze yf_example "AAPL" 0 1
        = ([MsgFetching "AAPL"; MsgTable (tail_rows 10 d');
            MsgPriceChart; MsgRsiChart; MsgMacdChart;
            MsgRecommendation HOLD], None).
Proof.
  split.
  - destruct (on_analyze_outcome yf_example "XXXX" 0 1) as [Herr _].
    apply Herr. reflexivity.
  - destruct (on_analyze_outcome yf_example "AAPL" 0 1) as (_ & Hd & _).
    destruct (Hd (price_frame [10; 11; 12]%Z)) as (_ & _ & Hok);
      [reflexivity|].
    destruct Hok as (d' & s & Hrun & Hs & Happ); [reflexivity | by eexists |].
    exists d'. rewrite Happ. repeat f_equal.
    vm_compute in Hrun. injection Hrun as <-.
    vm_compute in Hs. by injection Hs as <-.
Defined.

(** ** The table shown *)

Lemma last_n_length {A} n (l : list A) :
  length (last_n n l) = n `min` length l.
Proof. unfold last_n. rewrite length_drop. lia. Qed.

Lemma last_last_n {A} n (l : list A) : 0 < n → last (last_n n l) = last l.
Proof.
  intros Hn. unfold last_n. rewrite !last_lookup, length_drop, lookup_drop.
  destruct (decide (length l = 0)) as [Hl|Hl].
  - by rewrite !lookup_ge_None_2 by lia.
  - f_equal. lia.
Qed.

Lemma column_tail_length n c :
  col_length (column_tail n c) = n `min` col_length c.
Proof. destruct c; simpl; apply last_n_length. Qed.

(** The table is the last rows of the analysed frame: [tail(n)] of a
    well-formed frame is well-formed with [min n rows] rows, keeps every
    column (cut to its last entries), and for [n >= 1] its last signal is
    the last signal of the whole frame, the one the recommendation is read
    from. *)
Theorem tail_rows_consistent (n : nat) (d : frame) :
  wf_frame d →
  wf_frame (tail_rows n d) ∧
  length (index (tail_rows n d)) = n `min` length (index d) ∧
  (∀ k, columns (tail_rows n d) !! k = column_tail n <$> columns d !! k) ∧
  (0 < n → last_signal (tail_rows n d) = last_signal d).
Proof.
  intros Hwf. unfold tail_rows. simpl. split_and!.
  - intros k c. simpl. rewrite lookup_fmap.
    intros (c0 & Hc0 & ->)%fmap_Some.
    rewrite column_tail_length, last_n_length. by rewrite (Hwf _ _ Hc0).
  - apply last_n_length.
  - intros k. apply lookup_fmap.
  - intros Hn. unfold last_signal, signal_values. simpl.
    rewrite lookup_fmap.
    destruct (columns d !! "Signal") as [[cs|zs]|]; simpl; try done.
    by apply last_last_n.
Qed.

Lemma tail_rows_consistent_witness :
  wf_frame (tail_rows 2 (price_frame [10; 11; 12]%Z)) ∧
  length (index (tail_rows 2 (price_frame [10; 11; 12]%Z))) = 2.
Proof.
  destruct (tail_rows_consistent 2 (price_frame [10; 11; 12]%Z))
    as (Hwf & Hlen & _); [apply price_frame_wf|].
  split; [exact Hwf | exact Hlen].
Defined.

(** ** MACD on rising and falling prices *)













(** ** Moving averages on rising and falling prices *)



















